(** * Particle simulation step of Part2/ParticleVisualize.cpp

    A shallow embedding of [ResolveCollision] and [StepSimulation] and the
    properties of the simulation step.

    Arithmetic.  The source computes in [float]; the specification describes
    positions and velocities as real-valued, and this development follows it:
    a [float] is a real number of [R], every operation is exact.  The two
    operations that leave the finite numbers on real operands, a division by
    zero and the square root of a negative number, are faults of the model
    ([fdiv], [fsqrt]) when the operand comes from particle data, and so is
    an index outside the particle array.  Rounding, overflow and NaN operands
    are outside the model.

    Randomness.  [std::rand] is library code: the k-th value of
    [std::rand() / (float)RAND_MAX] is the parameter [rand_unit k], and the
    state counts the calls made so far.

    Instrumentation.  The state carries a ghost [trace] of the pairs that
    reach the distance test of the narrow phase, each with the outcome of
    the test; the code never reads it. *)

From Stdlib Require Import Reals Lra Lia ZArith.
From stdpp Require Import gmap sorting.

Open Scope R_scope.

(** ** Data *)

(** [struct Vector2 { float x, y; }] *)
Module Vector2.
Record t : Type := mk { x : R; y : R }.
End Vector2.

(** [struct Particle { Vector2 position; Vector2 velocity; }] *)
Record Particle : Type := mkParticle {
  position : Vector2.t;
  velocity : Vector2.t
}.

(** [struct Cell { int x; int y; }], the key of the spatial hash. *)
Module Cell.
Record t : Type := mk { x : Z; y : Z }.
End Cell.

#[global] Instance Cell_eq_dec : EqDecision Cell.t :=
  ltac:(solve_decision).

#[global] Instance Cell_countable : Countable Cell.t :=
  inj_countable' (fun c => (Cell.x c, Cell.y c))
                 (fun p => Cell.mk (fst p) (snd p))
                 (fun c => match c with Cell.mk _ _ => eq_refl end).

(** The global [particles] vector, the position in the [std::rand] stream,
    and the ghost trace. *)
Record World : Type := mkWorld {
  particles : list Particle;
  rand_calls : nat;
  trace : list (nat * nat * bool)
}.

Definition set_particles (ps : list Particle) (w : World) : World :=
  mkWorld ps (rand_calls w) (trace w).

(** Field assignments [p.position.x = v] and the like. *)
Definition set_position_x (v : R) (p : Particle) : Particle :=
  mkParticle (Vector2.mk v (Vector2.y (position p))) (velocity p).
Definition set_position_y (v : R) (p : Particle) : Particle :=
  mkParticle (Vector2.mk (Vector2.x (position p)) v) (velocity p).
Definition set_velocity_x (v : R) (p : Particle) : Particle :=
  mkParticle (position p) (Vector2.mk v (Vector2.y (velocity p))).
Definition set_velocity_y (v : R) (p : Particle) : Particle :=
  mkParticle (position p) (Vector2.mk (Vector2.x (velocity p)) v).

(** ** A state and fault monad *)

Definition M (A : Type) : Type := World -> option (A * World).

Definition ret {A : Type} (a : A) : M A := fun w => Some (a, w).

Definition bind {A B : Type} (m : M A) (k : A -> M B) : M B :=
  fun w => match m w with
           | Some (a, w') => k a w'
           | None => None
           end.

Definition fault {A : Type} : M A := fun _ => None.

Notation "x <- m ;; k" := (bind m (fun x => k))
  (at level 100, m at next level, right associativity).
Notation "m ;;; k" := (bind m (fun _ => k))
  (at level 100, right associativity).

(** A range-based [for] whose body returns nothing. *)
Fixpoint for_each {A : Type} (l : list A) (body : A -> M unit) : M unit :=
  match l with
  | [] => ret tt
  | a :: l' => body a ;;; for_each l' body
  end.

(** [particles[i]] as an rvalue; an index outside the vector is a fault. *)
Definition particle_at (i : nat) : M Particle :=
  fun w => match particles w !! i with
           | Some p => Some (p, w)
           | None => None
           end.

(** [particles[i].field op= ...], a read-modify-write of one element. *)
Definition update_particle (i : nat) (f : Particle -> Particle) : M unit :=
  fun w => match particles w !! i with
           | Some p => Some (tt, set_particles (<[i := f p]> (particles w)) w)
           | None => None
           end.

(** [a / b] on operands that depend on particle data. *)
Definition fdiv (a b : R) : M R :=
  if Req_dec_T b 0 then fault else ret (a / b).

(** [std::sqrt(a)] *)
Definition fsqrt (a : R) : M R :=
  if Rlt_dec a 0 then fault else ret (sqrt a).

(** Ghost: record that the pair [(i, j)] was tested, with the outcome. *)
Definition log_test (i j : nat) (hit : bool) : M unit :=
  fun w => Some (tt, mkWorld (particles w) (rand_calls w)
                             (trace w ++ [(i, j, hit)])).

Section Simulation.

(** [static const float radius], [areaSize], and [const float p] of
    [ResolveCollision], the magnitude of the perturbation. *)
Variables radius areaSize perturbation : R.

(** The values of [std::rand() / (float)RAND_MAX], call after call. *)
Variable rand_unit : nat -> R.

(** [std::rand() / (float)RAND_MAX] *)
Definition next_rand : M R :=
  fun w => Some (rand_unit (rand_calls w),
                 mkWorld (particles w) (S (rand_calls w)) (trace w)).

(** ** Collision resolution *)

Definition ResolveCollision (i j : nat) : M unit :=
  pi <- particle_at i ;;
  pj <- particle_at j ;;
  let dx := Vector2.x (position pj) - Vector2.x (position pi) in
  let dy := Vector2.y (position pj) - Vector2.y (position pi) in
  let dist2 := dx * dx + dy * dy in
  let minDist := 2 * radius in
  let '(dx, dy, dist2) :=
    if Req_dec_T dist2 0
    then (1e-3, 0, 1e-3 * 1e-3 + 0 * 0)
    else (dx, dy, dist2) in
  if Rlt_dec dist2 (minDist * minDist) then
    dist <- fsqrt dist2 ;;
    nx <- fdiv dx dist ;;
    ny <- fdiv dy dist ;;
    let overlap := 0.5 * (minDist - dist) in
    update_particle i
      (fun p => set_position_x (Vector2.x (position p) - nx * overlap) p) ;;;
    update_particle i
      (fun p => set_position_y (Vector2.y (position p) - ny * overlap) p) ;;;
    update_particle j
      (fun p => set_position_x (Vector2.x (position p) + nx * overlap) p) ;;;
    update_particle j
      (fun p => set_position_y (Vector2.y (position p) + ny * overlap) p) ;;;
    (* std::swap(particles[i].velocity.x, particles[j].velocity.x) *)
    a <- particle_at i ;;
    b <- particle_at j ;;
    update_particle i (set_velocity_x (Vector2.x (velocity b))) ;;;
    update_particle j (set_velocity_x (Vector2.x (velocity a))) ;;;
    (* std::swap(particles[i].velocity.y, particles[j].velocity.y) *)
    a <- particle_at i ;;
    b <- particle_at j ;;
    update_particle i (set_velocity_y (Vector2.y (velocity b))) ;;;
    update_particle j (set_velocity_y (Vector2.y (velocity a))) ;;;
    let p := perturbation in
    r1 <- next_rand ;;
    update_particle i
      (fun q => set_velocity_x (Vector2.x (velocity q) + (r1 - 0.5) * p) q) ;;;
    r2 <- next_rand ;;
    update_particle i
      (fun q => set_velocity_y (Vector2.y (velocity q) + (r2 - 0.5) * p) q) ;;;
    r3 <- next_rand ;;
    update_particle j
      (fun q => set_velocity_x (Vector2.x (velocity q) + (r3 - 0.5) * p) q) ;;;
    r4 <- next_rand ;;
    update_particle j
      (fun q => set_velocity_y (Vector2.y (velocity q) + (r4 - 0.5) * p) q)
  else ret tt.

(** ** Integration and wall bounces *)

Definition half : R := areaSize * 0.5.

(** The body of the first loop of [StepSimulation]. *)
Definition integrate (dt : R) (particle : Particle) : Particle :=
  let px := Vector2.x (position particle) + Vector2.x (velocity particle) * dt in
  let py := Vector2.y (position particle) + Vector2.y (velocity particle) * dt in
  let vx := Vector2.x (velocity particle) in
  let vy := Vector2.y (velocity particle) in
  let '(px, vx) :=
    if Rlt_dec (px - radius) (- half) then (- half + radius, vx * -1)
    else if Rgt_dec (px + radius) half then (half - radius, vx * -1)
    else (px, vx) in
  let '(py, vy) :=
    if Rlt_dec (py - radius) (- half) then (- half + radius, vy * -1)
    else if Rgt_dec (py + radius) half then (half - radius, vy * -1)
    else (py, vy) in
  mkParticle (Vector2.mk px py) (Vector2.mk vx vy).

(** [for (auto &particle : particles) ...] *)
Definition integrate_all (dt : R) : M unit :=
  fun w => Some (tt, set_particles (map (integrate dt) (particles w)) w).

(** ** Spatial hashing broad phase *)

Definition cellSize : R := 2 * radius.

(** [(int)std::floor((v + half) / cellSize)]; the divisor is the constant
    [cellSize], the [int] is an unbounded integer. *)
Definition cell_index (v : R) : Z := Zfloor ((v + half) / cellSize).

Definition cell_of (p : Particle) : Cell.t :=
  Cell.mk (cell_index (Vector2.x (position p)))
          (cell_index (Vector2.y (position p))).

(** [it->second] when [grid.find(c)] succeeds, nothing otherwise. *)
Definition bucket (grid : gmap Cell.t (list nat)) (c : Cell.t) : list nat :=
  default [] (grid !! c).

(** [grid[c].push_back(i)] *)
Definition grid_push (c : Cell.t) (i : nat) (grid : gmap Cell.t (list nat))
  : gmap Cell.t (list nat) :=
  <[c := bucket grid c ++ [i]]> grid.

(** The second loop of [StepSimulation], over the indices [idxs]. *)
Definition build_grid_from (ps : list Particle) (idxs : list nat)
    (grid : gmap Cell.t (list nat)) : gmap Cell.t (list nat) :=
  foldl (fun g i => match ps !! i with
                    | Some p => grid_push (cell_of p) i g
                    | None => g
                    end) grid idxs.

Definition build_grid (ps : list Particle) : gmap Cell.t (list nat) :=
  build_grid_from ps (seq 0 (length ps)) ∅.

(** ** Narrow phase *)

(** The body of [for (int j : it->second)]. *)
Definition examine (i j : nat) : M unit :=
  if (j <=? i)%nat then ret tt
  else
    pi <- particle_at i ;;
    pj <- particle_at j ;;
    let dx := Vector2.x (position pj) - Vector2.x (position pi) in
    let dy := Vector2.y (position pj) - Vector2.y (position pi) in
    let distSq := dx * dx + dy * dy in
    if Rlt_dec distSq ((2 * radius) * (2 * radius)) then
      log_test i j true ;;;
      ResolveCollision i j
    else log_test i j false.

(** The body of [for (int i = 0; ...)] of the narrow phase. *)
Definition scan (grid : gmap Cell.t (list nat)) (i : nat) : M unit :=
  p <- particle_at i ;;
  let cx := cell_index (Vector2.x (position p)) in
  let cy := cell_index (Vector2.y (position p)) in
  for_each [cx - 1; cx; cx + 1]%Z (fun nx =>
    for_each [cy - 1; cy; cy + 1]%Z (fun ny =>
      match grid !! Cell.mk nx ny with
      | None => ret tt
      | Some js => for_each js (examine i)
      end)).

Definition narrow_phase (grid : gmap Cell.t (list nat)) : M unit :=
  fun w => for_each (seq 0 (length (particles w))) (scan grid) w.

(** ** The simulation step *)

Definition StepSimulation (dt : R) : M unit :=
  integrate_all dt ;;;
  (fun w => narrow_phase (build_grid (particles w)) w).

End Simulation.

(** The constants of Part2/ParticleVisualize.cpp. *)
Module Part2.
Definition radius : R := 4.
Definition areaSize : R := 600.
Definition dtFixed : R := 1 / 60.
Definition p : R := 0.01.
End Part2.

(** ** Notions used by the statements *)

(** Distance between the centres of two particles. *)
Definition distance (p q : Particle) : R :=
  sqrt ((Vector2.x (position q) - Vector2.x (position p)) *
        (Vector2.x (position q) - Vector2.x (position p)) +
        (Vector2.y (position q) - Vector2.y (position p)) *
        (Vector2.y (position q) - Vector2.y (position p))).

(** The vector from [i] to [j] that [ResolveCollision] normalises: the
    difference of the centres, or the nudge when the centres coincide. *)
Definition contact (pi pj : Particle) : R * R :=
  let dx := Vector2.x (position pj) - Vector2.x (position pi) in
  let dy := Vector2.y (position pj) - Vector2.y (position pi) in
  if Req_dec_T (dx * dx + dy * dy) 0 then (1e-3, 0) else (dx, dy).

(** The indices met by the 3x3 scan around cell [c], in the order of the
    two [for] loops over [nx] and [ny] and of each bucket. *)
Definition neighbours (grid : gmap Cell.t (list nat)) (c : Cell.t) : list nat :=
  [Cell.x c - 1; Cell.x c; Cell.x c + 1]%Z ≫= (fun nx =>
    [Cell.y c - 1; Cell.y c; Cell.y c + 1]%Z ≫= (fun ny =>
      bucket grid (Cell.mk nx ny))).

(** Those that pass [if (j <= i) continue]. *)
Definition candidates (grid : gmap Cell.t (list nat)) (c : Cell.t) (i : nat)
  : list nat :=
  filter (fun j => (i < j)%nat) (neighbours grid c).

(** The cell of the particle at index [k] of [ps]. *)
Definition cell_at (radius areaSize : R) (ps : list Particle) (k : nat)
  : option Cell.t :=
  cell_of radius areaSize <$> ps !! k.

(** Number of entries of a trace in which [k] takes part in a pair that
    was handed to [ResolveCollision]. *)
Definition hits (k : nat) (tr : list (nat * nat * bool)) : nat :=
  length (filter (fun e => e.2 = true /\ (e.1.1 = k \/ e.1.2 = k)) tr).

(** Number of entries of a trace on the unordered pair [{a, b}]. *)
Definition tests_of (a b : nat) (tr : list (nat * nat * bool)) : nat :=
  length (filter (fun e => e.1 = (a, b) \/ e.1 = (b, a)) tr).

(** Number of calls of [ResolveCollision] on the unordered pair [{a, b}]
    recorded in a trace. *)
Definition resolutions_of (a b : nat) (tr : list (nat * nat * bool)) : nat :=
  length (filter (fun e => e.2 = true /\ (e.1 = (a, b) \/ e.1 = (b, a))) tr).

(** Total correctness: from a state in [P] the action returns, in [Q]. *)
Definition hoare {A : Type} (P : World -> Prop) (m : M A)
    (Q : A -> World -> Prop) : Prop :=
  forall w, P w -> exists a w', m w = Some (a, w') /\ Q a w'.

(** The array [ps] with [a] at index [i] and [b] at index [j]. *)
Definition pair_world (ps : list Particle) (i j : nat) (a b : Particle)
    (rc : nat) (tr : list (nat * nat * bool)) : World :=
  mkWorld (<[j := b]> (<[i := a]> ps)) rc tr.

(** [w] differs from [w0] at most in the slots [i] and [j] and in the
    position in the random stream. *)
Definition frame (i j : nat) (w0 w : World) : Prop :=
  length (particles w) = length (particles w0) /\
  trace w = trace w0 /\
  forall k, k <> i -> k <> j -> particles w !! k = particles w0 !! k.

Section Notions.

Variables radius perturbation : R.
Variable rand_unit : nat -> R.

(** What [ResolveCollision i j] writes into slot [i], from the particles
    read at [i] and [j] and the position [rc] in the random stream. *)
Definition resolved_i (pi pj : Particle) (rc : nat) : Particle :=
  let dx := fst (contact pi pj) in
  let dy := snd (contact pi pj) in
  let dist := sqrt (dx * dx + dy * dy) in
  let overlap := 0.5 * (2 * radius - dist) in
  mkParticle
    (Vector2.mk (Vector2.x (position pi) - dx / dist * overlap)
                (Vector2.y (position pi) - dy / dist * overlap))
    (Vector2.mk
       (Vector2.x (velocity pj) + (rand_unit rc - 0.5) * perturbation)
       (Vector2.y (velocity pj) + (rand_unit (S rc) - 0.5) * perturbation)).

(** What it writes into slot [j]. *)
Definition resolved_j (pi pj : Particle) (rc : nat) : Particle :=
  let dx := fst (contact pi pj) in
  let dy := snd (contact pi pj) in
  let dist := sqrt (dx * dx + dy * dy) in
  let overlap := 0.5 * (2 * radius - dist) in
  mkParticle
    (Vector2.mk (Vector2.x (position pj) + dx / dist * overlap)
                (Vector2.y (position pj) + dy / dist * overlap))
    (Vector2.mk
       (Vector2.x (velocity pi) + (rand_unit (S (S rc)) - 0.5) * perturbation)
       (Vector2.y (velocity pi) + (rand_unit (S (S (S rc))) - 0.5) * perturbation)).

(** The predicate of the [if] that guards the resolution. *)
Definition overlapping (pi pj : Particle) : Prop :=
  fst (contact pi pj) * fst (contact pi pj) +
  snd (contact pi pj) * snd (contact pi pj) < (2 * radius) * (2 * radius).

(** The pair passes the test of the narrow phase. *)
Definition close (pi pj : Particle) : Prop :=
  (Vector2.x (position pj) - Vector2.x (position pi)) *
  (Vector2.x (position pj) - Vector2.x (position pi)) +
  (Vector2.y (position pj) - Vector2.y (position pi)) *
  (Vector2.y (position pj) - Vector2.y (position pi)) <
  (2 * radius) * (2 * radius).

(** Every coordinate is within [b0] plus one [radius] for each call of
    [ResolveCollision] the particle took part in. *)
Definition within (b0 : R) (w : World) : Prop :=
  forall k q, particles w !! k = Some q ->
    Rabs (Vector2.x (position q)) <= b0 + radius * INR (hits k (trace w)) /\
    Rabs (Vector2.y (position q)) <= b0 + radius * INR (hits k (trace w)).

End Notions.

(** ** The rest of Part2/ParticleVisualize.cpp *)

(** The fallback [#define M_PI]. *)
Definition M_PI : R := 3.14159265358979323846.

Section Main.

Variables radius areaSize perturbation : R.
Variable rand_unit : nat -> R.

(** The body of the initialisation loop of [main], on [particles[i]]. *)
Definition init_particle (i : nat) : M unit :=
  u <- next_rand rand_unit ;;
  update_particle i (set_position_x (u * areaSize - areaSize * 0.5)) ;;;
  u <- next_rand rand_unit ;;
  update_particle i (set_position_y (u * areaSize - areaSize * 0.5)) ;;;
  u <- next_rand rand_unit ;;
  let angle := u * 2 * M_PI in
  update_particle i (set_velocity_x (cos angle * 80)) ;;;
  update_particle i (set_velocity_y (sin angle * 80)).

(** [for (auto &particle : particles) ...] of [main]. *)
Definition init_particles : M unit :=
  fun w => for_each (seq 0 (length (particles w))) init_particle w.

(** The main loop for [frames] iterations: [StepSimulation(dt)] each
    frame; rendering and event polling only read the particles. *)
Fixpoint main_loop (dt : R) (frames : nat) : M unit :=
  match frames with
  | O => ret tt
  | S k =>
      StepSimulation radius areaSize perturbation rand_unit dt ;;;
      main_loop dt k
  end.

(** [main] from the initialisation on. *)
Definition main (dt : R) (frames : nat) : M unit :=
  init_particles ;;; main_loop dt frames.

End Main.

(** Squared speed of a particle and its sum over the array. *)
Definition speed2 (p : Particle) : R :=
  Vector2.x (velocity p) * Vector2.x (velocity p) +
  Vector2.y (velocity p) * Vector2.y (velocity p).

Definition kinetic (ps : list Particle) : R :=
  foldr (fun p acc => speed2 p + acc) 0 ps.

(** Number of pairs of a trace that were handed to [ResolveCollision]. *)
Definition calls (tr : list (nat * nat * bool)) : nat :=
  length (filter (fun e => e.2 = true) tr).

(** * Properties *)

Section Integrator.

Variables radius areaSize : R.

Lemma integrate_position_x dt p :
  Vector2.x (position (integrate radius areaSize dt p)) =
  let px := Vector2.x (position p) + Vector2.x (velocity p) * dt in
  if Rlt_dec (px - radius) (- (half areaSize)) then - (half areaSize) + radius
  else if Rgt_dec (px + radius) (half areaSize) then (half areaSize) - radius else px.
Proof.
  unfold integrate. cbv zeta.
  repeat (destruct (Rlt_dec _ _) || destruct (Rgt_dec _ _)); reflexivity.
Qed.

Lemma integrate_velocity_x dt p :
  Vector2.x (velocity (integrate radius areaSize dt p)) =
  let px := Vector2.x (position p) + Vector2.x (velocity p) * dt in
  if Rlt_dec (px - radius) (- (half areaSize)) then Vector2.x (velocity p) * -1
  else if Rgt_dec (px + radius) (half areaSize) then Vector2.x (velocity p) * -1
  else Vector2.x (velocity p).
Proof.
  unfold integrate. cbv zeta.
  repeat (destruct (Rlt_dec _ _) || destruct (Rgt_dec _ _)); reflexivity.
Qed.

Lemma integrate_position_y dt p :
  Vector2.y (position (integrate radius areaSize dt p)) =
  let py := Vector2.y (position p) + Vector2.y (velocity p) * dt in
  if Rlt_dec (py - radius) (- (half areaSize)) then - (half areaSize) + radius
  else if Rgt_dec (py + radius) (half areaSize) then (half areaSize) - radius else py.
Proof.
  unfold integrate. cbv zeta.
  repeat (destruct (Rlt_dec _ _) || destruct (Rgt_dec _ _)); reflexivity.
Qed.

Lemma integrate_velocity_y dt p :
  Vector2.y (velocity (integrate radius areaSize dt p)) =
  let py := Vector2.y (position p) + Vector2.y (velocity p) * dt in
  if Rlt_dec (py - radius) (- (half areaSize)) then Vector2.y (velocity p) * -1
  else if Rgt_dec (py + radius) (half areaSize) then Vector2.y (velocity p) * -1
  else Vector2.y (velocity p).
Proof.
  unfold integrate. cbv zeta.
  repeat (destruct (Rlt_dec _ _) || destruct (Rgt_dec _ _)); reflexivity.
Qed.

(** C4. For a domain that holds a disk ([radius <= areaSize / 2]): a
    particle whose integrated x would cross the wall at [+half] gets
    [position.x = (half areaSize) - radius] and its [velocity.x] negated, one that
    would cross [-half] gets [position.x = - (half areaSize) + radius] and its
    [velocity.x] negated, and likewise on the y axis; what happens on one
    axis depends on nothing of the other axis, so a wall event on x leaves
    the y position and the y velocity as they would be without it. *)
Theorem wall_reflection dt p :
  radius <= areaSize / 2 ->
  let px := Vector2.x (position p) + Vector2.x (velocity p) * dt in
  let py := Vector2.y (position p) + Vector2.y (velocity p) * dt in
  let q := integrate radius areaSize dt p in
  (px + radius > (half areaSize) ->
     Vector2.x (position q) = (half areaSize) - radius /\
     Vector2.x (velocity q) = - Vector2.x (velocity p)) /\
  (px - radius < - (half areaSize) ->
     Vector2.x (position q) = - (half areaSize) + radius /\
     Vector2.x (velocity q) = - Vector2.x (velocity p)) /\
  (py + radius > (half areaSize) ->
     Vector2.y (position q) = (half areaSize) - radius /\
     Vector2.y (velocity q) = - Vector2.y (velocity p)) /\
  (py - radius < - (half areaSize) ->
     Vector2.y (position q) = - (half areaSize) + radius /\
     Vector2.y (velocity q) = - Vector2.y (velocity p)) /\
  (- (half areaSize) <= py - radius -> py + radius <= (half areaSize) ->
     Vector2.y (position q) = py /\
     Vector2.y (velocity q) = Vector2.y (velocity p)) /\
  (- (half areaSize) <= px - radius -> px + radius <= (half areaSize) ->
     Vector2.x (position q) = px /\
     Vector2.x (velocity q) = Vector2.x (velocity p)) /\
  (forall p',
     Vector2.y (position p') = Vector2.y (position p) ->
     Vector2.y (velocity p') = Vector2.y (velocity p) ->
     Vector2.y (position (integrate radius areaSize dt p')) = Vector2.y (position q) /\
     Vector2.y (velocity (integrate radius areaSize dt p')) = Vector2.y (velocity q)) /\
  (forall p',
     Vector2.x (position p') = Vector2.x (position p) ->
     Vector2.x (velocity p') = Vector2.x (velocity p) ->
     Vector2.x (position (integrate radius areaSize dt p')) = Vector2.x (position q) /\
     Vector2.x (velocity (integrate radius areaSize dt p')) = Vector2.x (velocity q)).
Proof.
  intros Hfit px py q. subst q.
  assert (Hh : half areaSize = areaSize / 2) by (unfold half; lra).
  rewrite integrate_position_x, integrate_velocity_x,
          integrate_position_y, integrate_velocity_y.
  cbv zeta. fold px py.
  repeat split;
    try (intros;
         repeat (destruct (Rlt_dec _ _) || destruct (Rgt_dec _ _)); lra).
  - rewrite integrate_position_y. cbv zeta. rewrite H, H0. reflexivity.
  - rewrite integrate_velocity_y. cbv zeta. rewrite H, H0. reflexivity.
  - rewrite integrate_position_x. cbv zeta. rewrite H, H0. reflexivity.
  - rewrite integrate_velocity_x. cbv zeta. rewrite H, H0. reflexivity.
Qed.

Lemma integrate_inside dt p :
  radius <= areaSize / 2 ->
  Rabs (Vector2.x (position (integrate radius areaSize dt p)))
    <= areaSize / 2 - radius /\
  Rabs (Vector2.y (position (integrate radius areaSize dt p)))
    <= areaSize / 2 - radius.
Proof.
  intros Hfit.
  assert (Hh : half areaSize = areaSize / 2) by (unfold half; lra).
  rewrite integrate_position_x, integrate_position_y. cbv zeta.
  split; apply Rabs_le;
    repeat (destruct (Rlt_dec _ _) || destruct (Rgt_dec _ _)); lra.
Qed.

(** C9. With [radius <= areaSize / 2], every particle that leaves the
    integration and wall phase has [|x| <= areaSize/2 - radius] and
    [|y| <= areaSize/2 - radius], whatever its position and velocity
    were, and this holds for every element of the array after
    [integrate_all]. *)
Theorem integrate_all_inside dt w :
  radius <= areaSize / 2 ->
  exists w',
    integrate_all radius areaSize dt w = Some (tt, w') /\
    length (particles w') = length (particles w) /\
    forall k q, particles w' !! k = Some q ->
      Rabs (Vector2.x (position q)) <= areaSize / 2 - radius /\
      Rabs (Vector2.y (position q)) <= areaSize / 2 - radius.
Proof.
  intros Hfit. eexists. split; [reflexivity|]. simpl. split.
  - apply length_map.
  - intros k q Hq. rewrite list_lookup_fmap in Hq.
    destruct (particles w !! k) as [p|]; [|discriminate].
    injection Hq as <-. apply integrate_inside, Hfit.
Qed.

End Integrator.

(** ** Reasoning about the monad *)

Lemma bind_run {A B : Type} (m : M A) (k : A -> M B) w a w' :
  m w = Some (a, w') -> bind m k w = k a w'.
Proof. intros H. unfold bind. rewrite H. reflexivity. Qed.

Lemma for_each_ext {A : Type} (l : list A) (f g : A -> M unit) w :
  (forall a w0, a ∈ l -> f a w0 = g a w0) ->
  for_each l f w = for_each l g w.
Proof.
  revert w. induction l as [|a l IH]; intros w H; [reflexivity|].
  simpl. unfold bind. rewrite H by left.
  destruct (g a w) as [[[] w1]|]; [|reflexivity].
  apply IH. intros b w0 Hb. apply H. right. exact Hb.
Qed.

Lemma for_each_app {A : Type} (l1 l2 : list A) (f : A -> M unit) w :
  for_each (l1 ++ l2) f w = (for_each l1 f ;;; for_each l2 f) w.
Proof.
  revert w. induction l1 as [|a l1 IH]; intros w; [reflexivity|].
  simpl. unfold bind in *.
  destruct (f a w) as [[[] w1]|]; [|reflexivity].
  apply IH.
Qed.

Lemma for_each_flat_map {A B : Type} (l : list A) (g : A -> list B)
    (f : B -> M unit) w :
  for_each l (fun a => for_each (g a) f) w = for_each (l ≫= g) f w.
Proof.
  revert w. induction l as [|a l IH]; intros w; [reflexivity|].
  rewrite bind_cons, for_each_app. simpl. unfold bind.
  destruct (for_each (g a) f w) as [[[] w1]|]; [|reflexivity].
  apply IH.
Qed.

(** Skipped elements can be filtered out beforehand. *)
Lemma for_each_filter {A : Type} (P : A -> Prop) `{forall a, Decision (P a)}
    (l : list A) (f : A -> M unit) w :
  (forall a w0, ~ P a -> f a w0 = Some (tt, w0)) ->
  for_each l f w = for_each (filter P l) f w.
Proof.
  intros Hskip. revert w. induction l as [|a l IH]; intros w; [reflexivity|].
  rewrite filter_cons. destruct (decide (P a)) as [Ha|Ha].
  - simpl. unfold bind. destruct (f a w) as [[[] w1]|]; [|reflexivity].
    apply IH.
  - simpl. unfold bind. rewrite (Hskip a w Ha). apply IH.
Qed.

Lemma hoare_ret {A : Type} (P : World -> Prop) (a : A) :
  hoare P (ret a) (fun _ w => P w).
Proof. intros w Hw. exists a, w. split; [reflexivity | exact Hw]. Qed.

Lemma hoare_bind {A B : Type} (P : World -> Prop) (Q : A -> World -> Prop)
    (S : B -> World -> Prop) (m : M A) (k : A -> M B) :
  hoare P m Q -> (forall a, hoare (Q a) (k a) S) -> hoare P (bind m k) S.
Proof.
  intros Hm Hk w Hw. destruct (Hm w Hw) as (a & w1 & E1 & H1).
  destruct (Hk a w1 H1) as (b & w2 & E2 & H2).
  exists b, w2. split; [|exact H2]. rewrite (bind_run _ _ _ _ _ E1). exact E2.
Qed.

(** A loop with an invariant indexed by the elements already visited. *)
Lemma hoare_for_each {A : Type} (I : list A -> World -> Prop) (l : list A)
    (body : A -> M unit) :
  (forall seen a rest, l = seen ++ a :: rest ->
     hoare (I seen) (body a) (fun _ => I (seen ++ [a]))) ->
  hoare (I []) (for_each l body) (fun _ => I l).
Proof.
  intros Hbody.
  assert (G : forall rest seen, l = seen ++ rest ->
            hoare (I seen) (for_each rest body) (fun _ => I l)).
  { induction rest as [|a rest IH]; intros seen E.
    - rewrite app_nil_r in E. rewrite E. apply hoare_ret.
    - simpl. eapply hoare_bind.
      + apply (Hbody seen a rest E).
      + intros u. cbv beta. apply IH. rewrite <- app_assoc. exact E. }
  apply (G l []). reflexivity.
Qed.

(** ** The primitives on a pair of distinct particles *)

Section PairWorld.

Variables (ps : list Particle) (i j : nat).
Hypothesis Hij : i <> j.
Hypothesis Hi : (i < length ps)%nat.
Hypothesis Hj : (j < length ps)%nat.

Lemma pair_world_at_i a b rc tr :
  particle_at i (pair_world ps i j a b rc tr) = Some (a, pair_world ps i j a b rc tr).
Proof using Hij Hi.
  unfold particle_at, pair_world. simpl.
  rewrite list_lookup_insert_ne by congruence.
  rewrite list_lookup_insert_eq by exact Hi. reflexivity.
Qed.

Lemma pair_world_at_j a b rc tr :
  particle_at j (pair_world ps i j a b rc tr) = Some (b, pair_world ps i j a b rc tr).
Proof using Hj.
  unfold particle_at, pair_world. simpl.
  rewrite list_lookup_insert_eq by (rewrite length_insert; exact Hj).
  reflexivity.
Qed.

Lemma pair_world_update_i f a b rc tr :
  update_particle i f (pair_world ps i j a b rc tr) =
  Some (tt, pair_world ps i j (f a) b rc tr).
Proof using Hij Hi.
  unfold update_particle, pair_world, set_particles. simpl.
  rewrite list_lookup_insert_ne by congruence.
  rewrite list_lookup_insert_eq by exact Hi.
  rewrite list_insert_insert_ne by exact Hij.
  rewrite list_insert_insert_eq. reflexivity.
Qed.

Lemma pair_world_update_j f a b rc tr :
  update_particle j f (pair_world ps i j a b rc tr) =
  Some (tt, pair_world ps i j a (f b) rc tr).
Proof using Hj.
  unfold update_particle, pair_world, set_particles. simpl.
  rewrite list_lookup_insert_eq by (rewrite length_insert; exact Hj).
  rewrite list_insert_insert_eq. reflexivity.
Qed.

End PairWorld.

Lemma pair_world_id w i j pi pj :
  particles w !! i = Some pi -> particles w !! j = Some pj ->
  w = pair_world (particles w) i j pi pj (rand_calls w) (trace w).
Proof.
  intros Hi Hj. unfold pair_world.
  rewrite (list_insert_id _ i pi Hi), (list_insert_id _ j pj Hj).
  destruct w; reflexivity.
Qed.

Lemma particle_at_run i w p :
  particles w !! i = Some p -> particle_at i w = Some (p, w).
Proof. intros H. unfold particle_at. rewrite H. reflexivity. Qed.

Lemma fsqrt_run a w : 0 <= a -> fsqrt a w = Some (sqrt a, w).
Proof. intros H. unfold fsqrt. destruct (Rlt_dec a 0); [lra | reflexivity]. Qed.

Lemma fdiv_run a b w : b <> 0 -> fdiv a b w = Some (a / b, w).
Proof.
  intros H. unfold fdiv. destruct (Req_dec_T b 0); [contradiction | reflexivity].
Qed.

Lemma sum_sqr_nonneg (a b : R) : 0 <= a * a + b * b.
Proof. nra. Qed.

(** Pushing both ends of a segment of length [d] outwards by
    [(2 r - d) / 2] along the segment gives a segment of length [2 r]. *)
Lemma separation_algebra (xi yi xj yj d r : R) :
  0 < d ->
  d * d = (xj - xi) * (xj - xi) + (yj - yi) * (yj - yi) ->
  let nx := (xj - xi) / d in
  let ny := (yj - yi) / d in
  let o := 0.5 * (2 * r - d) in
  (xj + nx * o - (xi - nx * o)) * (xj + nx * o - (xi - nx * o)) +
  (yj + ny * o - (yi - ny * o)) * (yj + ny * o - (yi - ny * o)) =
  (2 * r) * (2 * r).
Proof.
  intros Hd Hsq nx ny o.
  assert (Ex : xj - xi = nx * d) by (unfold nx; field; lra).
  assert (Ey : yj - yi = ny * d) by (unfold ny; field; lra).
  assert (Hn : nx * nx + ny * ny = 1).
  { assert (H : (nx * nx + ny * ny) * (d * d) = d * d).
    { rewrite Ex, Ey in Hsq.
      transitivity (nx * d * (nx * d) + ny * d * (ny * d));
        [ring | symmetry; exact Hsq]. }
    assert (Hdd : d * d <> 0) by nra.
    apply (Rmult_eq_reg_r (d * d)); [lra | exact Hdd]. }
  replace (xj + nx * o - (xi - nx * o)) with (nx * (d + 2 * o))
    by (transitivity (xj - xi + 2 * nx * o); [rewrite Ex; ring | ring]).
  replace (yj + ny * o - (yi - ny * o)) with (ny * (d + 2 * o))
    by (transitivity (yj - yi + 2 * ny * o); [rewrite Ey; ring | ring]).
  replace (d + 2 * o) with (2 * r) by (unfold o; lra).
  replace (nx * (2 * r) * (nx * (2 * r)) + ny * (2 * r) * (ny * (2 * r)))
    with ((nx * nx + ny * ny) * ((2 * r) * (2 * r))) by ring.
  rewrite Hn. ring.
Qed.

Lemma contact_pos pi pj :
  0 < fst (contact pi pj) * fst (contact pi pj) +
      snd (contact pi pj) * snd (contact pi pj).
Proof.
  unfold contact. cbv zeta. destruct (Req_dec_T _ _) as [E|E]; simpl.
  - lra.
  - set (dx := Vector2.x (position pj) - Vector2.x (position pi)) in *.
    set (dy := Vector2.y (position pj) - Vector2.y (position pi)) in *.
    nra.
Qed.

Section Resolver.

Variables radius perturbation : R.
Variable rand_unit : nat -> R.

Lemma pair_world_next_rand ps i j a b rc tr :
  next_rand rand_unit (pair_world ps i j a b rc tr) =
  Some (rand_unit rc, pair_world ps i j a b (S rc) tr).
Proof. reflexivity. Qed.

Lemma ResolveCollision_run w i j pi pj :
  i <> j ->
  particles w !! i = Some pi -> particles w !! j = Some pj ->
  overlapping radius pi pj ->
  ResolveCollision radius perturbation rand_unit i j w =
  Some (tt, pair_world (particles w) i j
              (resolved_i radius perturbation rand_unit pi pj (rand_calls w))
              (resolved_j radius perturbation rand_unit pi pj (rand_calls w))
              (S (S (S (S (rand_calls w))))) (trace w)).
Proof.
  intros Hij Hi Hj Hov.
  pose proof (contact_pos pi pj) as Hpos.
  assert (Hli := lookup_lt_Some _ _ _ Hi).
  assert (Hlj := lookup_lt_Some _ _ _ Hj).
  rewrite (pair_world_id w i j pi pj Hi Hj) at 1.
  unfold ResolveCollision, overlapping, resolved_i, resolved_j in *.
  revert Hov Hpos. unfold contact. cbv zeta.
  set (ps := particles w). set (rc := rand_calls w). set (tr := trace w).
  rewrite (bind_run _ _ _ _ _ (pair_world_at_i ps i j Hij Hli _ _ _ _)).
  rewrite (bind_run _ _ _ _ _ (pair_world_at_j ps i j Hlj _ _ _ _)).
  destruct (Req_dec_T _ _) as [E|E]; simpl fst; simpl snd; intros Hov Hpos;
    (destruct (Rlt_dec _ _) as [_|N]; [|contradiction]);
    (rewrite (bind_run _ _ _ _ _ (fsqrt_run _ _ (Rlt_le _ _ Hpos))));
    (rewrite (bind_run _ _ _ _ _
               (fdiv_run _ _ _ (not_eq_sym (Rlt_not_eq _ _ (sqrt_lt_R0 _ Hpos))))));
    (rewrite (bind_run _ _ _ _ _
               (fdiv_run _ _ _ (not_eq_sym (Rlt_not_eq _ _ (sqrt_lt_R0 _ Hpos))))));
    cbv zeta;
    repeat first
      [ rewrite (bind_run _ _ _ _ _ (pair_world_update_i ps i j Hij Hli _ _ _ _ _))
      | rewrite (bind_run _ _ _ _ _ (pair_world_update_j ps i j Hlj _ _ _ _ _))
      | rewrite (bind_run _ _ _ _ _ (pair_world_at_i ps i j Hij Hli _ _ _ _))
      | rewrite (bind_run _ _ _ _ _ (pair_world_at_j ps i j Hlj _ _ _ _))
      | rewrite (bind_run _ _ _ _ _ (pair_world_next_rand ps i j _ _ _ _))
      | progress cbv zeta ];
    rewrite (pair_world_update_j ps i j Hlj);
    reflexivity.
Qed.

Lemma ResolveCollision_skip w i j pi pj :
  particles w !! i = Some pi -> particles w !! j = Some pj ->
  ~ overlapping radius pi pj ->
  ResolveCollision radius perturbation rand_unit i j w = Some (tt, w).
Proof.
  intros Hi Hj Hov.
  unfold ResolveCollision, overlapping in *. revert Hov.
  unfold contact. cbv zeta.
  rewrite (bind_run _ _ _ _ _ (particle_at_run i w pi Hi)).
  rewrite (bind_run _ _ _ _ _ (particle_at_run j w pj Hj)).
  destruct (Req_dec_T _ _) as [E|E]; simpl fst; simpl snd; intros Hov;
    (destruct (Rlt_dec _ _) as [Y|_]; [contradiction | reflexivity]).
Qed.

End Resolver.

(** ** Frame of [ResolveCollision] *)

Lemma frame_refl i j w : frame i j w w.
Proof. repeat split. Qed.

Lemma hoare_particle_at (P : World -> Prop) k :
  (forall w, P w -> (k < length (particles w))%nat) ->
  hoare P (particle_at k) (fun _ => P).
Proof.
  intros Hk w Hw. destruct (lookup_lt_is_Some_2 _ _ (Hk w Hw)) as [p Hp].
  exists p, w. split; [apply particle_at_run, Hp | exact Hw].
Qed.

Lemma hoare_fsqrt {B : Type} (P : World -> Prop) a (k : R -> M B) S :
  0 <= a -> hoare P (k (sqrt a)) S -> hoare P (bind (fsqrt a) k) S.
Proof.
  intros Ha Hk w Hw. rewrite (bind_run _ _ _ _ _ (fsqrt_run a w Ha)).
  apply Hk, Hw.
Qed.

Lemma hoare_fdiv {B : Type} (P : World -> Prop) a b (k : R -> M B) S :
  b <> 0 -> hoare P (k (a / b)) S -> hoare P (bind (fdiv a b) k) S.
Proof.
  intros Hb Hk w Hw. rewrite (bind_run _ _ _ _ _ (fdiv_run a b w Hb)).
  apply Hk, Hw.
Qed.

Section Frame.

Variables (i j : nat) (w0 : World).
Hypothesis Hi : (i < length (particles w0))%nat.
Hypothesis Hj : (j < length (particles w0))%nat.

Lemma frame_update k f :
  k = i \/ k = j ->
  hoare (frame i j w0) (update_particle k f) (fun _ => frame i j w0).
Proof using Hi Hj.
  intros Hk w (Hlen & Htr & Hfr).
  assert (Hlt : (k < length (particles w))%nat)
    by (rewrite Hlen; destruct Hk; subst k; assumption).
  destruct (lookup_lt_is_Some_2 _ _ Hlt) as [p Hp].
  exists tt. eexists. unfold update_particle. rewrite Hp.
  split; [reflexivity|]. unfold frame, set_particles. simpl.
  rewrite length_insert. repeat split; [exact Hlen | exact Htr |].
  intros k' H1 H2. rewrite list_lookup_insert_ne.
  - apply Hfr; assumption.
  - destruct Hk; subst k; congruence.
Qed.

Lemma frame_at k :
  k = i \/ k = j ->
  hoare (frame i j w0) (particle_at k) (fun _ => frame i j w0).
Proof using Hi Hj.
  intros Hk. apply hoare_particle_at. intros w (Hlen & _).
  rewrite Hlen. destruct Hk; subst k; assumption.
Qed.

Lemma frame_next_rand rand_unit :
  hoare (frame i j w0) (next_rand rand_unit) (fun _ => frame i j w0).
Proof.
  intros w Hw. eexists _, _. split; [reflexivity|]. exact Hw.
Qed.

Lemma ResolveCollision_frame radius perturbation rand_unit :
  hoare (frame i j w0)
        (ResolveCollision radius perturbation rand_unit i j)
        (fun _ => frame i j w0).
Proof using Hi Hj.
  unfold ResolveCollision.
  eapply hoare_bind; [apply frame_at; auto | intros pi].
  eapply hoare_bind; [apply frame_at; auto | intros pj].
  cbv zeta.
  set (dx := Vector2.x (position pj) - Vector2.x (position pi)).
  set (dy := Vector2.y (position pj) - Vector2.y (position pi)).
  assert (Hnn : 0 <= dx * dx + dy * dy) by nra.
  assert (Hrest : forall ax ay : R, 0 < ax * ax + ay * ay ->
    hoare (frame i j w0)
      (if Rlt_dec (ax * ax + ay * ay) (2 * radius * (2 * radius)) then
         dist <- fsqrt (ax * ax + ay * ay) ;;
         nx <- fdiv ax dist ;;
         ny <- fdiv ay dist ;;
         update_particle i
           (fun p => set_position_x
              (Vector2.x (position p) - nx * (0.5 * (2 * radius - dist))) p) ;;;
         update_particle i
           (fun p => set_position_y
              (Vector2.y (position p) - ny * (0.5 * (2 * radius - dist))) p) ;;;
         update_particle j
           (fun p => set_position_x
              (Vector2.x (position p) + nx * (0.5 * (2 * radius - dist))) p) ;;;
         update_particle j
           (fun p => set_position_y
              (Vector2.y (position p) + ny * (0.5 * (2 * radius - dist))) p) ;;;
         a <- particle_at i ;;
         b <- particle_at j ;;
         update_particle i (set_velocity_x (Vector2.x (velocity b))) ;;;
         update_particle j (set_velocity_x (Vector2.x (velocity a))) ;;;
         a <- particle_at i ;;
         b <- particle_at j ;;
         update_particle i (set_velocity_y (Vector2.y (velocity b))) ;;;
         update_particle j (set_velocity_y (Vector2.y (velocity a))) ;;;
         r1 <- next_rand rand_unit ;;
         update_particle i
           (fun q => set_velocity_x
              (Vector2.x (velocity q) + (r1 - 0.5) * perturbation) q) ;;;
         r2 <- next_rand rand_unit ;;
         update_particle i
           (fun q => set_velocity_y
              (Vector2.y (velocity q) + (r2 - 0.5) * perturbation) q) ;;;
         r3 <- next_rand rand_unit ;;
         update_particle j
           (fun q => set_velocity_x
              (Vector2.x (velocity q) + (r3 - 0.5) * perturbation) q) ;;;
         r4 <- next_rand rand_unit ;;
         update_particle j
           (fun q => set_velocity_y
              (Vector2.y (velocity q) + (r4 - 0.5) * perturbation) q)
       else ret tt)
      (fun _ => frame i j w0)).
  { intros ax ay Hpos. destruct (Rlt_dec _ _); [|apply hoare_ret].
    apply hoare_fsqrt; [lra|].
    pose proof (sqrt_lt_R0 _ Hpos) as Hd.
    apply hoare_fdiv; [lra|]. apply hoare_fdiv; [lra|].
    repeat first
      [ apply frame_update; auto
      | eapply hoare_bind;
        [ first [ apply frame_update; auto | apply frame_at; auto
                | apply frame_next_rand ]
        | intros ? ] ]. }
  destruct (Req_dec_T _ _) as [E|E].
  - apply Hrest. lra.
  - apply Hrest. lra.
Qed.

End Frame.

Section ResolverClaims.

Variables radius perturbation : R.
Variable rand_unit : nat -> R.

(** C10. [ResolveCollision i j] returns, leaves the length of the array
    and every particle other than [i] and [j] as they were, and changes
    nothing at all when the squared distance of the pair is non-zero and
    at least [(2 * radius)^2]. *)
Theorem ResolveCollision_footprint w i j pi pj :
  particles w !! i = Some pi -> particles w !! j = Some pj ->
  let dx := Vector2.x (position pj) - Vector2.x (position pi) in
  let dy := Vector2.y (position pj) - Vector2.y (position pi) in
  exists w',
    ResolveCollision radius perturbation rand_unit i j w = Some (tt, w') /\
    length (particles w') = length (particles w) /\
    (forall k, k <> i -> k <> j -> particles w' !! k = particles w !! k) /\
    (dx * dx + dy * dy <> 0 ->
     (2 * radius) * (2 * radius) <= dx * dx + dy * dy -> w' = w).
Proof.
  intros Hi Hj dx dy.
  destruct (ResolveCollision_frame i j w
              (lookup_lt_Some _ _ _ Hi) (lookup_lt_Some _ _ _ Hj)
              radius perturbation rand_unit w (frame_refl i j w))
    as ([] & w' & E & Hlen & _ & Hfr).
  exists w'. repeat split; try assumption.
  intros Hnz Hfar.
  assert (Hskip : ~ overlapping radius pi pj).
  { unfold overlapping, contact. cbv zeta. fold dx dy.
    destruct (Req_dec_T _ _); [contradiction|]. simpl. lra. }
  rewrite (ResolveCollision_skip _ _ _ w i j pi pj Hi Hj Hskip) in E.
  congruence.
Qed.

Lemma pair_world_lookup_i (ps : list Particle) i j a b rc tr :
  i <> j -> (i < length ps)%nat ->
  particles (pair_world ps i j a b rc tr) !! i = Some a.
Proof.
  intros Hij Hi. unfold pair_world. simpl.
  rewrite list_lookup_insert_ne by congruence.
  apply list_lookup_insert_eq, Hi.
Qed.

Lemma pair_world_lookup_j (ps : list Particle) i j a b rc tr :
  (j < length ps)%nat ->
  particles (pair_world ps i j a b rc tr) !! j = Some b.
Proof.
  intros Hj. unfold pair_world. simpl.
  apply list_lookup_insert_eq. rewrite length_insert. exact Hj.
Qed.

Lemma pair_world_lookup_other (ps : list Particle) i j a b rc tr k :
  k <> i -> k <> j ->
  particles (pair_world ps i j a b rc tr) !! k = ps !! k.
Proof.
  intros Hi Hj. unfold pair_world. simpl.
  rewrite !list_lookup_insert_ne by congruence. reflexivity.
Qed.

(** When the centres are apart, [contact] is their difference and its
    length is their distance. *)
Lemma contact_apart pi pj :
  0 < distance pi pj ->
  contact pi pj = (Vector2.x (position pj) - Vector2.x (position pi),
                   Vector2.y (position pj) - Vector2.y (position pi)).
Proof.
  unfold distance, contact. cbv zeta. intros Hd.
  destruct (Req_dec_T _ _) as [E|E]; [|reflexivity].
  rewrite E, sqrt_0 in Hd. lra.
Qed.

Lemma distance_sqr pi pj :
  distance pi pj * distance pi pj =
  (Vector2.x (position pj) - Vector2.x (position pi)) *
  (Vector2.x (position pj) - Vector2.x (position pi)) +
  (Vector2.y (position pj) - Vector2.y (position pi)) *
  (Vector2.y (position pj) - Vector2.y (position pi)).
Proof. unfold distance. apply sqrt_sqrt, sum_sqr_nonneg. Qed.

Lemma overlapping_apart pi pj :
  0 < distance pi pj < 2 * radius -> overlapping radius pi pj.
Proof.
  intros [Hd Hr]. unfold overlapping. rewrite (contact_apart _ _ Hd).
  simpl. rewrite <- distance_sqr. nra.
Qed.

(** C5. On a pair whose centres are at a distance [d] with
    [0 < d < 2 * radius], [ResolveCollision] moves [i] by [(2 * radius - d) / 2]
    against the unit vector from [i] to [j] and [j] by the same amount
    along it, and the centres end at distance exactly [2 * radius]. *)
Theorem ResolveCollision_separates w i j pi pj :
  particles w !! i = Some pi -> particles w !! j = Some pj ->
  0 < distance pi pj < 2 * radius ->
  let d := distance pi pj in
  let nx := (Vector2.x (position pj) - Vector2.x (position pi)) / d in
  let ny := (Vector2.y (position pj) - Vector2.y (position pi)) / d in
  exists w' pi' pj',
    ResolveCollision radius perturbation rand_unit i j w = Some (tt, w') /\
    particles w' !! i = Some pi' /\ particles w' !! j = Some pj' /\
    nx * nx + ny * ny = 1 /\
    Vector2.x (position pi') = Vector2.x (position pi) - nx * ((2 * radius - d) / 2) /\
    Vector2.y (position pi') = Vector2.y (position pi) - ny * ((2 * radius - d) / 2) /\
    Vector2.x (position pj') = Vector2.x (position pj) + nx * ((2 * radius - d) / 2) /\
    Vector2.y (position pj') = Vector2.y (position pj) + ny * ((2 * radius - d) / 2) /\
    distance pi' pj' = 2 * radius.
Proof.
  intros Hi Hj Hd d nx ny.
  assert (Hij : i <> j).
  { intros ->. rewrite Hi in Hj. injection Hj as ->.
    unfold distance in Hd.
    replace ((Vector2.x (position pj) - Vector2.x (position pj)) *
             (Vector2.x (position pj) - Vector2.x (position pj)) +
             (Vector2.y (position pj) - Vector2.y (position pj)) *
             (Vector2.y (position pj) - Vector2.y (position pj)))
      with 0 in Hd by lra.
    rewrite sqrt_0 in Hd. lra. }
  pose proof (overlapping_apart pi pj Hd) as Hov.
  pose proof (lookup_lt_Some _ _ _ Hi) as Hli.
  pose proof (lookup_lt_Some _ _ _ Hj) as Hlj.
  pose proof (distance_sqr pi pj) as Hsq. fold d in Hsq.
  assert (Hd0 : 0 < d) by apply Hd.
  eexists _, _, _.
  split; [apply (ResolveCollision_run _ _ _ w i j pi pj Hij Hi Hj Hov)|].
  split; [apply pair_world_lookup_i; assumption|].
  split; [apply pair_world_lookup_j; assumption|].
  unfold resolved_i, resolved_j. rewrite (contact_apart _ _ (proj1 Hd)).
  cbv zeta. simpl fst. simpl snd.
  change (sqrt _) with d. simpl.
  set (dx := Vector2.x (position pj) - Vector2.x (position pi)) in *.
  set (dy := Vector2.y (position pj) - Vector2.y (position pi)) in *.
  assert (Hn : nx * nx + ny * ny = 1).
  { unfold nx, ny. fold dx dy.
    replace (dx / d * (dx / d) + dy / d * (dy / d))
      with ((dx * dx + dy * dy) / (d * d)) by (field; lra).
    rewrite <- Hsq. field. lra. }
  split; [exact Hn|]. fold nx ny.
  repeat (split; [lra|]).
  unfold distance. simpl. fold nx ny.
  transitivity (sqrt ((2 * radius) * (2 * radius)));
    [|apply sqrt_square; lra].
  f_equal. apply (separation_algebra _ _ _ _ d radius Hd0 Hsq).
Qed.

Lemma distance_nonneg pi pj : 0 <= distance pi pj.
Proof. apply sqrt_pos. Qed.

Lemma contact_coincident pi pj :
  distance pi pj = 0 -> contact pi pj = (1e-3, 0).
Proof.
  unfold distance, contact. cbv zeta. intros Hd.
  destruct (Req_dec_T _ _) as [E|E]; [reflexivity|].
  apply sqrt_eq_0 in Hd; [contradiction | apply sum_sqr_nonneg].
Qed.

Lemma nudge_length : sqrt (1e-3 * 1e-3 + 0 * 0) = 1e-3.
Proof.
  replace (1e-3 * 1e-3 + 0 * 0) with (1e-3 * 1e-3) by lra.
  apply sqrt_square. lra.
Qed.

Lemma overlapping_close pi pj :
  distance pi pj < 2 * radius ->
  0 < distance pi pj \/ 1e-3 < 2 * radius ->
  overlapping radius pi pj.
Proof.
  intros Hr Hc. pose proof (distance_nonneg pi pj) as H0.
  destruct (Rle_lt_or_eq_dec _ _ H0) as [Hpos|Hz].
  - apply overlapping_apart. split; assumption.
  - destruct Hc as [Hc|Hc]; [lra|].
    unfold overlapping. rewrite contact_coincident by congruence.
    simpl. nra.
Qed.

End ResolverClaims.

Section SwapClaim.

Variable radius : R.
Variable rand_unit : nat -> R.

(** C6. With the magnitude of the perturbation at zero, [ResolveCollision]
    on two distinct particles closer than [2 * radius] (when they coincide,
    the nudge has to be shorter than the diameter for the pair to count as
    colliding) leaves [i] with the velocity [j] had and [j] with the
    velocity [i] had, and every other particle as it was. *)
Theorem ResolveCollision_swaps_velocities w i j pi pj :
  i <> j ->
  particles w !! i = Some pi -> particles w !! j = Some pj ->
  distance pi pj < 2 * radius ->
  0 < distance pi pj \/ 1e-3 < 2 * radius ->
  exists w' pi' pj',
    ResolveCollision radius 0 rand_unit i j w = Some (tt, w') /\
    particles w' !! i = Some pi' /\ particles w' !! j = Some pj' /\
    velocity pi' = velocity pj /\ velocity pj' = velocity pi /\
    forall k, k <> i -> k <> j -> particles w' !! k = particles w !! k.
Proof.
  intros Hij Hi Hj Hr Hc.
  pose proof (overlapping_close radius pi pj Hr Hc) as Hov.
  pose proof (lookup_lt_Some _ _ _ Hi) as Hli.
  pose proof (lookup_lt_Some _ _ _ Hj) as Hlj.
  eexists _, _, _.
  split; [apply (ResolveCollision_run _ _ _ w i j pi pj Hij Hi Hj Hov)|].
  split; [apply pair_world_lookup_i; assumption|].
  split; [apply pair_world_lookup_j; assumption|].
  split; [|split].
  - unfold resolved_i. simpl. destruct (velocity pj) as [vx vy]. simpl.
    f_equal; lra.
  - unfold resolved_j. simpl. destruct (velocity pi) as [vx vy]. simpl.
    f_equal; lra.
  - intros k Hki Hkj. apply pair_world_lookup_other; assumption.
Qed.

End SwapClaim.

Section DegenerateClaim.

Variables radius perturbation : R.
Variable rand_unit : nat -> R.

(** C7. On two distinct particles at the same position the vector that
    is normalised is the nudge [(1e-3, 0)], its length, the divisor, is
    [1e-3], and [ResolveCollision] returns without a fault: when the nudge
    is shorter than the diameter the particles end [2 * radius - 1e-3]
    apart on a horizontal line, with the velocities exchanged and
    perturbed; otherwise nothing changes. *)
Theorem ResolveCollision_coincident w i j pi pj :
  i <> j ->
  particles w !! i = Some pi -> particles w !! j = Some pj ->
  position pi = position pj ->
  contact pi pj = (1e-3, 0) /\
  sqrt (fst (contact pi pj) * fst (contact pi pj) +
        snd (contact pi pj) * snd (contact pi pj)) = 1e-3 /\
  exists w',
    ResolveCollision radius perturbation rand_unit i j w = Some (tt, w') /\
    (1e-3 < 2 * radius ->
     exists pi' pj',
       particles w' !! i = Some pi' /\ particles w' !! j = Some pj' /\
       position pi' =
         Vector2.mk (Vector2.x (position pi) - (radius - 1e-3 / 2))
                    (Vector2.y (position pi)) /\
       position pj' =
         Vector2.mk (Vector2.x (position pj) + (radius - 1e-3 / 2))
                    (Vector2.y (position pj)) /\
       distance pi' pj' = 2 * radius - 1e-3 /\
       velocity pi' =
         Vector2.mk
           (Vector2.x (velocity pj) +
            (rand_unit (rand_calls w) - 0.5) * perturbation)
           (Vector2.y (velocity pj) +
            (rand_unit (S (rand_calls w)) - 0.5) * perturbation) /\
       velocity pj' =
         Vector2.mk
           (Vector2.x (velocity pi) +
            (rand_unit (S (S (rand_calls w))) - 0.5) * perturbation)
           (Vector2.y (velocity pi) +
            (rand_unit (S (S (S (rand_calls w)))) - 0.5) * perturbation)) /\
    (0 <= 2 * radius <= 1e-3 -> w' = w).
Proof.
  intros Hij Hi Hj Hpos.
  assert (Hd : distance pi pj = 0).
  { unfold distance. rewrite Hpos.
    replace ((Vector2.x (position pj) - Vector2.x (position pj)) *
             (Vector2.x (position pj) - Vector2.x (position pj)) +
             (Vector2.y (position pj) - Vector2.y (position pj)) *
             (Vector2.y (position pj) - Vector2.y (position pj)))
      with 0 by lra.
    apply sqrt_0. }
  pose proof (contact_coincident pi pj Hd) as Hc.
  split; [exact Hc|]. rewrite Hc. simpl fst. simpl snd.
  split; [apply nudge_length|].
  pose proof (lookup_lt_Some _ _ _ Hi) as Hli.
  pose proof (lookup_lt_Some _ _ _ Hj) as Hlj.
  destruct (Rlt_dec (1e-3) (2 * radius)) as [Hbig|Hsmall].
  - assert (Hov : overlapping radius pi pj).
    { apply overlapping_close; [rewrite Hd; lra | right; exact Hbig]. }
    eexists. split;
      [apply (ResolveCollision_run _ _ _ w i j pi pj Hij Hi Hj Hov)|].
    split; [|lra]. intros _. eexists _, _.
    split; [apply pair_world_lookup_i; assumption|].
    split; [apply pair_world_lookup_j; assumption|].
    unfold resolved_i, resolved_j, distance. rewrite Hc. cbv zeta.
    simpl fst. simpl snd. rewrite nudge_length. simpl. rewrite Hpos.
    repeat split; try (f_equal; lra).
    replace ((Vector2.x (position pj) + 1e-3 / 1e-3 * (0.5 * (2 * radius - 1e-3)) -
              (Vector2.x (position pj) - 1e-3 / 1e-3 * (0.5 * (2 * radius - 1e-3)))) *
             (Vector2.x (position pj) + 1e-3 / 1e-3 * (0.5 * (2 * radius - 1e-3)) -
              (Vector2.x (position pj) - 1e-3 / 1e-3 * (0.5 * (2 * radius - 1e-3)))) +
             (Vector2.y (position pj) + 0 / 1e-3 * (0.5 * (2 * radius - 1e-3)) -
              (Vector2.y (position pj) - 0 / 1e-3 * (0.5 * (2 * radius - 1e-3)))) *
             (Vector2.y (position pj) + 0 / 1e-3 * (0.5 * (2 * radius - 1e-3)) -
              (Vector2.y (position pj) - 0 / 1e-3 * (0.5 * (2 * radius - 1e-3)))))
      with ((2 * radius - 1e-3) * (2 * radius - 1e-3)) by lra.
    apply sqrt_square. lra.
  - destruct (Rle_lt_dec 0 (2 * radius)) as [Hnn|Hneg].
    + assert (Hov : ~ overlapping radius pi pj).
      { unfold overlapping. rewrite Hc. simpl. nra. }
      exists w. split; [apply (ResolveCollision_skip _ _ _ w i j pi pj Hi Hj Hov)|].
      split; [lra | reflexivity].
    + destruct (ResolveCollision_frame i j w Hli Hlj
                  radius perturbation rand_unit w (frame_refl i j w))
        as ([] & w' & E & _).
      exists w'. split; [exact E|]. split; lra.
Qed.

End DegenerateClaim.

(** ** The spatial hash *)

Section Grid.

Variables radius areaSize : R.

Lemma bucket_grid_push c0 i grid c :
  bucket (grid_push c0 i grid) c =
  if decide (c0 = c) then bucket grid c ++ [i] else bucket grid c.
Proof.
  unfold grid_push. unfold bucket at 1. rewrite lookup_insert.
  destruct (decide (c0 = c)) as [->|]; reflexivity.
Qed.

Lemma bucket_build_grid_from ps idxs grid c :
  bucket (build_grid_from radius areaSize ps idxs grid) c =
  bucket grid c ++
  filter (fun k => cell_at radius areaSize ps k = Some c) idxs.
Proof.
  revert grid. induction idxs as [|i idxs IH]; intros grid.
  - simpl. rewrite app_nil_r. reflexivity.
  - unfold build_grid_from in *. simpl foldl. rewrite IH.
    rewrite filter_cons.
    assert (Hc : cell_at radius areaSize ps i =
                 cell_of radius areaSize <$> ps !! i) by reflexivity.
    destruct (ps !! i) as [p|]; simpl in Hc; rewrite Hc.
    + rewrite bucket_grid_push.
      destruct (decide (cell_of radius areaSize p = c)) as [E|E].
      * rewrite decide_True by congruence. rewrite <- app_assoc. reflexivity.
      * rewrite decide_False by congruence. reflexivity.
    + rewrite decide_False by discriminate. reflexivity.
Qed.

(** The bucket of a cell holds the indices of the particles of that cell,
    in increasing order. *)
Lemma bucket_build_grid ps c :
  bucket (build_grid radius areaSize ps) c =
  filter (fun k => cell_at radius areaSize ps k = Some c)
         (seq 0 (length ps)).
Proof.
  unfold build_grid. rewrite bucket_build_grid_from.
  unfold bucket. rewrite lookup_empty. reflexivity.
Qed.

Lemma elem_of_bucket ps c k :
  k ∈ bucket (build_grid radius areaSize ps) c <->
  cell_at radius areaSize ps k = Some c.
Proof.
  rewrite bucket_build_grid, list_elem_of_filter, elem_of_seq.
  split; [tauto|]. intros H. split; [exact H|].
  unfold cell_at in H. destruct (ps !! k) as [p|] eqn:E; [|discriminate].
  apply lookup_lt_Some in E. lia.
Qed.

Lemma elem_of_neighbours ps c k :
  k ∈ neighbours (build_grid radius areaSize ps) c <->
  exists c', cell_at radius areaSize ps k = Some c' /\
             (Cell.x c - 1 <= Cell.x c' <= Cell.x c + 1)%Z /\
             (Cell.y c - 1 <= Cell.y c' <= Cell.y c + 1)%Z.
Proof.
  unfold neighbours. rewrite list_elem_of_bind. split.
  - intros (nx & Hk & Hnx). cbv beta in Hk. rewrite list_elem_of_bind in Hk.
    destruct Hk as (ny & Hk & Hny). apply elem_of_bucket in Hk.
    exists (Cell.mk nx ny). split; [exact Hk|]. simpl.
    rewrite !elem_of_cons, elem_of_nil in Hnx, Hny. lia.
  - intros ([cx' cy'] & Hk & Hx & Hy). simpl in Hx, Hy.
    exists cx'. split.
    + cbv beta. rewrite list_elem_of_bind. exists cy'. split.
      * apply elem_of_bucket, Hk.
      * rewrite !elem_of_cons.
        assert (cy' = Cell.y c - 1 \/ cy' = Cell.y c \/ cy' = Cell.y c + 1)%Z
          by lia. tauto.
    + rewrite !elem_of_cons.
      assert (cx' = Cell.x c - 1 \/ cx' = Cell.x c \/ cx' = Cell.x c + 1)%Z
        by lia. tauto.
Qed.

Lemma NoDup_three (z : Z) : NoDup [z - 1; z; z + 1]%Z.
Proof.
  repeat (apply NoDup_cons; split;
          [rewrite ?elem_of_cons, elem_of_nil; lia|]).
  apply NoDup_nil. exact I.
Qed.

Lemma NoDup_bucket ps c : NoDup (bucket (build_grid radius areaSize ps) c).
Proof. rewrite bucket_build_grid. apply NoDup_filter, NoDup_seq. Qed.

(** No index is met twice by the scan of a 3x3 neighbourhood. *)
Lemma NoDup_neighbours ps c :
  NoDup (neighbours (build_grid radius areaSize ps) c).
Proof.
  unfold neighbours. apply NoDup_bind; [| |apply NoDup_three].
  - intros x1 x2 k _ _ H1 H2. cbv beta in H1, H2.
    rewrite list_elem_of_bind in H1, H2.
    destruct H1 as (y1 & H1 & _), H2 as (y2 & H2 & _).
    apply elem_of_bucket in H1, H2. congruence.
  - intros nx _. apply NoDup_bind; [| |apply NoDup_three].
    + intros y1 y2 k _ _ H1 H2.
      apply elem_of_bucket in H1, H2. congruence.
    + intros ny _. apply NoDup_bucket.
Qed.

Lemma NoDup_candidates ps c i :
  NoDup (candidates (build_grid radius areaSize ps) c i).
Proof. apply NoDup_filter, NoDup_neighbours. Qed.

Lemma elem_of_candidates ps c i j :
  j ∈ candidates (build_grid radius areaSize ps) c i <->
  (i < j)%nat /\
  exists c', cell_at radius areaSize ps j = Some c' /\
             (Cell.x c - 1 <= Cell.x c' <= Cell.x c + 1)%Z /\
             (Cell.y c - 1 <= Cell.y c' <= Cell.y c + 1)%Z.
Proof.
  unfold candidates. rewrite list_elem_of_filter, elem_of_neighbours.
  reflexivity.
Qed.

Lemma candidates_lt ps c i j :
  j ∈ candidates (build_grid radius areaSize ps) c i ->
  (i < j < length ps)%nat.
Proof.
  rewrite elem_of_candidates. intros (Hij & c' & Hc & _).
  split; [exact Hij|]. unfold cell_at in Hc.
  destruct (ps !! j) as [p|] eqn:E; [|discriminate].
  apply lookup_lt_Some in E. exact E.
Qed.

(** Two coordinates less than a cell apart fall in the same cell or in
    adjacent cells. *)
Lemma cell_index_adjacent u v :
  Rabs (v - u) < cellSize radius ->
  (cell_index radius areaSize u - 1 <= cell_index radius areaSize v
     <= cell_index radius areaSize u + 1)%Z.
Proof.
  intros Hclose. unfold cell_index.
  set (c := cellSize radius) in *.
  assert (Hc : 0 < c) by (pose proof (Rabs_pos (v - u)); lra).
  set (a := (u + half areaSize) / c). set (b := (v + half areaSize) / c).
  assert (Hab : -1 < b - a < 1).
  { apply Rabs_def2 in Hclose.
    replace (b - a) with ((v - u) / c) by (unfold a, b; field; lra).
    split.
    - apply (Rmult_lt_reg_r c); [exact Hc|].
      replace ((v - u) / c * c) with (v - u) by (field; lra). lra.
    - apply (Rmult_lt_reg_r c); [exact Hc|].
      replace ((v - u) / c * c) with (v - u) by (field; lra). lra. }
  pose proof (Zfloor_bound a) as [Ha1 Ha2].
  pose proof (Zfloor_bound b) as [Hb1 Hb2].
  split.
  - assert (H : (Zfloor a < Zfloor b + 2)%Z).
    { apply lt_IZR. rewrite plus_IZR. lra. }
    lia.
  - assert (H : (Zfloor b < Zfloor a + 2)%Z).
    { apply lt_IZR. rewrite plus_IZR. lra. }
    lia.
Qed.

Lemma distance_bounds_x p q : Rabs (Vector2.x (position q) - Vector2.x (position p)) <= distance p q.
Proof.
  unfold distance.
  set (dx := Vector2.x (position q) - Vector2.x (position p)).
  set (dy := Vector2.y (position q) - Vector2.y (position p)).
  rewrite <- sqrt_Rsqr_abs. apply sqrt_le_1_alt. unfold Rsqr. nra.
Qed.

Lemma distance_bounds_y p q : Rabs (Vector2.y (position q) - Vector2.y (position p)) <= distance p q.
Proof.
  unfold distance.
  set (dx := Vector2.x (position q) - Vector2.x (position p)).
  set (dy := Vector2.y (position q) - Vector2.y (position p)).
  rewrite <- sqrt_Rsqr_abs. apply sqrt_le_1_alt. unfold Rsqr. nra.
Qed.

End Grid.

(** ** The narrow phase *)

Lemma log_test_run i j hit w :
  log_test i j hit w =
  Some (tt, mkWorld (particles w) (rand_calls w) (trace w ++ [(i, j, hit)])).
Proof. reflexivity. Qed.

Section Narrow.

Variables radius areaSize perturbation : R.
Variable rand_unit : nat -> R.

Local Abbreviation examine' := (examine radius perturbation rand_unit).
Local Abbreviation scan' := (scan radius areaSize perturbation rand_unit).
Local Abbreviation resolve' := (ResolveCollision radius perturbation rand_unit).

Lemma examine_skip i j w : (j <= i)%nat -> examine' i j w = Some (tt, w).
Proof.
  intros H. unfold examine. apply Nat.leb_le in H. rewrite H. reflexivity.
Qed.

Lemma examine_hit i j w pi pj :
  (i < j)%nat ->
  particles w !! i = Some pi -> particles w !! j = Some pj ->
  close radius pi pj ->
  examine' i j w =
  resolve' i j (mkWorld (particles w) (rand_calls w)
                        (trace w ++ [(i, j, true)])).
Proof.
  intros Hij Hi Hj Hc. unfold examine.
  apply Nat.leb_gt in Hij. rewrite Hij.
  rewrite (bind_run _ _ _ _ _ (particle_at_run i w pi Hi)).
  rewrite (bind_run _ _ _ _ _ (particle_at_run j w pj Hj)).
  cbv zeta. destruct (Rlt_dec _ _) as [_|N]; [|contradiction].
  rewrite (bind_run _ _ _ _ _ (log_test_run i j true w)). reflexivity.
Qed.

Lemma examine_miss i j w pi pj :
  (i < j)%nat ->
  particles w !! i = Some pi -> particles w !! j = Some pj ->
  ~ close radius pi pj ->
  examine' i j w =
  Some (tt, mkWorld (particles w) (rand_calls w)
                    (trace w ++ [(i, j, false)])).
Proof.
  intros Hij Hi Hj Hc. unfold examine.
  apply Nat.leb_gt in Hij. rewrite Hij.
  rewrite (bind_run _ _ _ _ _ (particle_at_run i w pi Hi)).
  rewrite (bind_run _ _ _ _ _ (particle_at_run j w pj Hj)).
  cbv zeta. destruct (Rlt_dec _ _) as [Y|_]; [contradiction|].
  reflexivity.
Qed.

(** [examine] returns, appends one entry to the trace and keeps the
    length of the array. *)
Lemma examine_total i j w :
  (i < j)%nat -> (j < length (particles w))%nat ->
  exists hit w',
    examine' i j w = Some (tt, w') /\
    length (particles w') = length (particles w) /\
    trace w' = trace w ++ [(i, j, hit)].
Proof.
  intros Hij Hj.
  destruct (lookup_lt_is_Some_2 (particles w) i ltac:(lia)) as [pi Hpi].
  destruct (lookup_lt_is_Some_2 (particles w) j Hj) as [pj Hpj].
  destruct (Rlt_dec
    ((Vector2.x (position pj) - Vector2.x (position pi)) *
     (Vector2.x (position pj) - Vector2.x (position pi)) +
     (Vector2.y (position pj) - Vector2.y (position pi)) *
     (Vector2.y (position pj) - Vector2.y (position pi)))
    ((2 * radius) * (2 * radius))) as [Hc|Hc].
  - exists true. rewrite (examine_hit i j w pi pj Hij Hpi Hpj Hc).
    set (w1 := mkWorld _ _ _).
    destruct (ResolveCollision_frame i j w1 ltac:(simpl; lia) Hj
                radius perturbation rand_unit w1 (frame_refl i j w1))
      as ([] & w' & E & Hlen & Htr & _).
    exists w'. split; [exact E|]. split; [exact Hlen | exact Htr].
  - exists false. rewrite (examine_miss i j w pi pj Hij Hpi Hpj Hc).
    eexists. split; [reflexivity|]. split; reflexivity.
Qed.

(** The three nested loops of [scan] visit the candidates in order. *)
Lemma scan_candidates grid i w :
  scan' grid i w =
  (p <- particle_at i ;;
   for_each (candidates grid (cell_of radius areaSize p) i) (examine' i)) w.
Proof.
  unfold scan, bind. destruct (particle_at i w) as [[p w1]|]; [|reflexivity].
  set (cx := cell_index radius areaSize (Vector2.x (position p))).
  set (cy := cell_index radius areaSize (Vector2.y (position p))).
  transitivity (for_each (neighbours grid (Cell.mk cx cy)) (examine' i) w1).
  - unfold neighbours. simpl Cell.x. simpl Cell.y.
    rewrite <- for_each_flat_map. apply for_each_ext. intros nx w2 _.
    rewrite <- for_each_flat_map. apply for_each_ext. intros ny w3 _.
    unfold bucket. destruct (grid !! _); reflexivity.
  - unfold candidates. apply for_each_filter.
    intros j w0 Hj. apply examine_skip. lia.
Qed.

End Narrow.

Section NarrowInvariant.

Variables radius areaSize perturbation : R.
Variable rand_unit : nat -> R.

(** The snapshot the grid was built from, and a property of the state
    that every tested pair preserves. *)
Variable ps0 : list Particle.
Variable B : World -> Prop.

Hypothesis B_examine : forall i j w w',
  (i < j < length ps0)%nat -> length (particles w) = length ps0 -> B w ->
  examine radius perturbation rand_unit i j w = Some (tt, w') -> B w'.

Lemma scan_spec i w :
  (i < length ps0)%nat -> length (particles w) = length ps0 -> B w ->
  exists p w',
    particles w !! i = Some p /\
    scan radius areaSize perturbation rand_unit
         (build_grid radius areaSize ps0) i w = Some (tt, w') /\
    length (particles w') = length ps0 /\ B w' /\
    fst <$> trace w' =
    (fst <$> trace w) ++
    (pair i <$> candidates (build_grid radius areaSize ps0)
                           (cell_of radius areaSize p) i).
Proof using B_examine.
  intros Hi Hlen HB.
  destruct (lookup_lt_is_Some_2 (particles w) i ltac:(lia)) as [p Hp].
  exists p. rewrite scan_candidates.
  rewrite (bind_run _ _ _ _ _ (particle_at_run i w p Hp)).
  set (cands := candidates _ _ _).
  pose (I := fun (seen : list nat) (w1 : World) =>
    length (particles w1) = length ps0 /\ B w1 /\
    fst <$> trace w1 = (fst <$> trace w) ++ (pair i <$> seen)).
  assert (Hbody : forall seen a rest, cands = seen ++ a :: rest ->
    hoare (I seen) (examine radius perturbation rand_unit i a)
          (fun _ => I (seen ++ [a]))).
  { intros seen a rest Hc w1 (Hl1 & HB1 & Ht1).
    assert (Ha : (i < a < length ps0)%nat).
    { apply (candidates_lt radius areaSize ps0 (cell_of radius areaSize p)).
      fold cands. rewrite Hc. apply elem_of_app. right. left. }
    destruct (examine_total radius perturbation rand_unit i a w1)
      as (hit & w2 & E & Hl2 & Ht2); [lia | lia |].
    exists tt, w2. split; [exact E|]. unfold I. split; [lia|]. split.
    - apply (B_examine i a w1 w2 Ha Hl1 HB1 E).
    - rewrite Ht2, !fmap_app, Ht1, <- app_assoc. reflexivity. }
  destruct (hoare_for_each I cands _ Hbody w) as ([] & w' & E & Hl & HB' & Ht).
  { unfold I. simpl. rewrite app_nil_r. auto. }
  exists w'. auto.
Qed.

(** The narrow phase returns; the pairs it tests are pairwise distinct
    and each has its smaller index first. *)
Lemma narrow_phase_spec w :
  length (particles w) = length ps0 -> B w ->
  exists w' L,
    narrow_phase radius areaSize perturbation rand_unit
                 (build_grid radius areaSize ps0) w = Some (tt, w') /\
    length (particles w') = length ps0 /\ B w' /\
    fst <$> trace w' = (fst <$> trace w) ++ L /\
    NoDup L /\
    forall a b, (a, b) ∈ L -> (a < b < length ps0)%nat.
Proof using B_examine.
  intros Hlen HB. unfold narrow_phase. rewrite Hlen.
  pose (J := fun (seen : list nat) (w1 : World) =>
    length (particles w1) = length ps0 /\ B w1 /\
    exists L, fst <$> trace w1 = (fst <$> trace w) ++ L /\ NoDup L /\
      forall a b, (a, b) ∈ L -> a ∈ seen /\ (a < b < length ps0)%nat).
  assert (Hbody : forall seen i rest, seq 0 (length ps0) = seen ++ i :: rest ->
    hoare (J seen)
          (scan radius areaSize perturbation rand_unit
                (build_grid radius areaSize ps0) i)
          (fun _ => J (seen ++ [i]))).
  { intros seen i rest Hs w1 (Hl1 & HB1 & L & Ht1 & HL & HLo).
    assert (Hi : (i < length ps0)%nat).
    { assert (H : i ∈ seq 0 (length ps0))
        by (rewrite Hs; apply elem_of_app; right; left).
      apply elem_of_seq in H. lia. }
    assert (Hfresh : i ∉ seen).
    { pose proof (NoDup_seq 0 (length ps0)) as Hnd. rewrite Hs in Hnd.
      apply NoDup_app in Hnd. destruct Hnd as (_ & Hd & _).
      intros Hin. apply (Hd i Hin). left. }
    destruct (scan_spec i w1 Hi Hl1 HB1) as (p & w2 & _ & E & Hl2 & HB2 & Ht2).
    exists tt, w2. split; [exact E|]. split; [exact Hl2|]. split; [exact HB2|].
    set (cands := candidates _ _ _) in Ht2.
    exists (L ++ (pair i <$> cands)).
    split; [rewrite Ht2, Ht1, <- app_assoc; reflexivity|]. split.
    - apply NoDup_app. split; [exact HL|]. split.
      + intros [a b] Hab Hnew. apply list_elem_of_fmap in Hnew.
        destruct Hnew as (c & Hc & _). injection Hc as -> ->.
        apply Hfresh. apply (HLo _ _ Hab).
      + apply NoDup_fmap_2_strong.
        * intros x y _ _ Hxy. congruence.
        * apply NoDup_candidates.
    - intros a b Hab. apply elem_of_app in Hab. destruct Hab as [Hab|Hab].
      + destruct (HLo a b Hab) as [Ha Hb]. split; [|exact Hb].
        apply elem_of_app. left. exact Ha.
      + apply list_elem_of_fmap in Hab. destruct Hab as (c & Hc & Hin).
        injection Hc as -> ->. split.
        * apply elem_of_app. right. left.
        * apply (candidates_lt radius areaSize ps0 _ _ _ Hin). }
  destruct (hoare_for_each J (seq 0 (length ps0)) _ Hbody w)
    as ([] & w' & E & Hl & HB' & L & Ht & HL & HLo).
  { unfold J. split; [exact Hlen|]. split; [exact HB|].
    exists []. rewrite app_nil_r. split; [reflexivity|].
    split; [apply NoDup_nil; exact I|]. intros a b Hab.
    apply elem_of_nil in Hab. contradiction. }
  exists w', L. repeat split; try assumption; apply (HLo a b H).
Qed.

End NarrowInvariant.

(** ** Counting the tests of a pair *)

Lemma tests_of_cons a b e tr :
  tests_of a b (e :: tr) =
  ((if decide (e.1 = (a, b) \/ e.1 = (b, a)) then 1 else 0) + tests_of a b tr)%nat.
Proof.
  unfold tests_of. rewrite filter_cons.
  destruct (decide (e.1 = (a, b) \/ e.1 = (b, a))); reflexivity.
Qed.

Lemma tests_of_zero a b tr :
  (forall e, e ∈ tr -> e.1 <> (a, b) /\ e.1 <> (b, a)) -> tests_of a b tr = 0%nat.
Proof.
  induction tr as [|e tr IH]; intros H; [reflexivity|].
  rewrite tests_of_cons, IH.
  - rewrite decide_False; [reflexivity|].
    destruct (H e ltac:(left)) as [H1 H2]. tauto.
  - intros e' He'. apply H. right. exact He'.
Qed.

Lemma tests_of_once a b tr :
  NoDup (fst <$> tr) ->
  (forall x y, (x, y) ∈ fst <$> tr -> (x < y)%nat) ->
  (tests_of a b tr <= 1)%nat.
Proof.
  induction tr as [|e tr IH]; intros Hnd Hord; [unfold tests_of; simpl; lia|].
  rewrite fmap_cons in Hnd, Hord. apply NoDup_cons in Hnd.
  destruct Hnd as [Hfresh Hnd].
  assert (Hord' : forall x y, (x, y) ∈ fst <$> tr -> (x < y)%nat)
    by (intros x y H; apply Hord; right; exact H).
  rewrite tests_of_cons.
  destruct (decide (e.1 = (a, b) \/ e.1 = (b, a))) as [He|He].
  - rewrite tests_of_zero; [lia|]. intros e' He'.
    assert (Hin : e'.1 ∈ fst <$> tr) by (apply list_elem_of_fmap_2, He').
    assert (Hne : e'.1 <> e.1) by (intros Heq; rewrite Heq in Hin; contradiction).
    pose proof (Hord (e.1).1 (e.1).2) as Ho.
    rewrite <- surjective_pairing in Ho. specialize (Ho ltac:(left)).
    pose proof (Hord' (e'.1).1 (e'.1).2) as Ho'.
    rewrite <- surjective_pairing in Ho'. specialize (Ho' Hin).
    split; intros Heq; rewrite Heq in *; simpl in *;
      destruct He as [He|He]; rewrite He in *; simpl in *;
      first [congruence | lia].
  - specialize (IH Hnd Hord'). lia.
Qed.

Lemma resolutions_le_tests a b tr :
  (resolutions_of a b tr <= tests_of a b tr)%nat.
Proof.
  unfold resolutions_of, tests_of. induction tr as [|e tr IH]; [simpl; lia|].
  rewrite !filter_cons.
  destruct (decide (e.2 = true /\ (e.1 = (a, b) \/ e.1 = (b, a)))) as [[_ H]|H].
  - rewrite decide_True by exact H. simpl. lia.
  - destruct (decide (e.1 = (a, b) \/ e.1 = (b, a))); simpl; lia.
Qed.

Section StepClaims.

Variables radius areaSize perturbation : R.
Variable rand_unit : nat -> R.

(** C3. One call of [StepSimulation], from any particle array, returns,
    and in it every unordered pair of indices reaches the distance test
    at most once, hence [ResolveCollision] at most once; a tested pair
    has its smaller index first, so no particle is paired with itself. *)
Theorem StepSimulation_tests_each_pair_once dt ps rc :
  exists w',
    StepSimulation radius areaSize perturbation rand_unit dt
                   (mkWorld ps rc []) = Some (tt, w') /\
    length (particles w') = length ps /\
    (forall a b, (tests_of a b (trace w') <= 1)%nat) /\
    (forall a b, (resolutions_of a b (trace w') <= 1)%nat) /\
    (forall a, tests_of a a (trace w') = 0%nat) /\
    (forall i j hit, (i, j, hit) ∈ trace w' -> (i < j < length ps)%nat).
Proof.
  unfold StepSimulation.
  rewrite (bind_run _ _ _ _ _ (eq_refl :
    integrate_all radius areaSize dt (mkWorld ps rc []) = Some (tt, _))).
  set (w1 := set_particles _ _).
  destruct (narrow_phase_spec radius areaSize perturbation rand_unit
              (particles w1) (fun _ => True) (fun _ _ _ _ _ _ _ _ => I)
              w1 eq_refl I)
    as (w' & L & E & Hlen & _ & Ht & HL & HLo).
  simpl in Ht.
  assert (Hn : length (particles w1) = length ps) by apply length_map.
  rewrite Hn in *.
  assert (Hord : forall x y, (x, y) ∈ fst <$> trace w' -> (x < y)%nat).
  { intros x y H. rewrite Ht in H. apply (HLo x y H). }
  assert (Hone : forall a b, (tests_of a b (trace w') <= 1)%nat).
  { intros a b. apply tests_of_once; [rewrite Ht; exact HL | exact Hord]. }
  exists w'. split; [exact E|]. split; [exact Hlen|]. split; [exact Hone|].
  split; [|split].
  - intros a b. pose proof (resolutions_le_tests a b (trace w')).
    specialize (Hone a b). lia.
  - intros a. apply tests_of_zero. intros e He.
    assert (H : ((e.1).1 < (e.1).2)%nat).
    { apply Hord. rewrite <- surjective_pairing.
      apply list_elem_of_fmap_2, He. }
    split; intros Heq; rewrite Heq in H; simpl in H; lia.
  - intros i j hit H. apply HLo. rewrite <- Ht.
    change (i, j) with ((i, j, hit).1). apply list_elem_of_fmap_2, H.
Qed.

End StepClaims.

(** ** How far a collision moves a particle *)

Lemma unit_component (a b : R) :
  0 < a * a + b * b -> Rabs (a / sqrt (a * a + b * b)) <= 1.
Proof.
  intros Hpos. set (d := sqrt (a * a + b * b)).
  assert (Hd : 0 < d) by (apply sqrt_lt_R0, Hpos).
  assert (Ha : Rabs a <= d).
  { unfold d. rewrite <- sqrt_Rsqr_abs. apply sqrt_le_1_alt. unfold Rsqr. nra. }
  unfold Rdiv. rewrite Rabs_mult, (Rabs_right (/ d)).
  - apply (Rmult_le_reg_r d); [exact Hd|].
    rewrite Rmult_assoc, Rinv_l by lra. lra.
  - apply Rle_ge, Rlt_le, Rinv_0_lt_compat, Hd.
Qed.

Lemma hits_app k tr e :
  hits k (tr ++ [e]) =
  (hits k tr +
   (if decide (e.2 = true /\ (e.1.1 = k \/ e.1.2 = k)) then 1 else 0))%nat.
Proof.
  unfold hits. rewrite filter_app, length_app. f_equal.
  rewrite filter_cons, filter_nil.
  destruct (decide (e.2 = true /\ (e.1.1 = k \/ e.1.2 = k))); reflexivity.
Qed.

Section Displacement.

Variables radius perturbation : R.
Variable rand_unit : nat -> R.
Hypothesis radius_nonneg : 0 <= radius.

Lemma overlap_bounds pi pj :
  overlapping radius pi pj ->
  let dx := fst (contact pi pj) in
  let dy := snd (contact pi pj) in
  0 <= 0.5 * (2 * radius - sqrt (dx * dx + dy * dy)) <= radius.
Proof using radius_nonneg.
  intros Hov dx dy. unfold overlapping in Hov. fold dx dy in Hov.
  pose proof (contact_pos pi pj) as Hpos. fold dx dy in Hpos.
  pose proof (sqrt_lt_R0 _ Hpos) as Hd.
  pose proof (sqrt_sqrt _ (Rlt_le _ _ Hpos)) as Hsq.
  set (d := sqrt (dx * dx + dy * dy)) in *.
  assert (d < 2 * radius) by nra. lra.
Qed.

Lemma push_bound (n o : R) : Rabs n <= 1 -> 0 <= o <= radius -> Rabs (n * o) <= radius.
Proof.
  intros Hn Ho. rewrite Rabs_mult, (Rabs_right o) by lra.
  pose proof (Rabs_pos n). nra.
Qed.

(** Each coordinate of each of the two particles moves by at most
    [radius]. *)
Lemma resolved_displacement pi pj rc :
  overlapping radius pi pj ->
  Rabs (Vector2.x (position (resolved_i radius perturbation rand_unit pi pj rc)))
    <= Rabs (Vector2.x (position pi)) + radius /\
  Rabs (Vector2.y (position (resolved_i radius perturbation rand_unit pi pj rc)))
    <= Rabs (Vector2.y (position pi)) + radius /\
  Rabs (Vector2.x (position (resolved_j radius perturbation rand_unit pi pj rc)))
    <= Rabs (Vector2.x (position pj)) + radius /\
  Rabs (Vector2.y (position (resolved_j radius perturbation rand_unit pi pj rc)))
    <= Rabs (Vector2.y (position pj)) + radius.
Proof using radius_nonneg.
  intros Hov. pose proof (overlap_bounds pi pj Hov) as Ho.
  pose proof (contact_pos pi pj) as Hpos. cbv zeta in Ho.
  unfold resolved_i, resolved_j. cbv zeta. simpl.
  set (dx := fst (contact pi pj)) in *. set (dy := snd (contact pi pj)) in *.
  pose proof (unit_component dx dy Hpos) as Hnx.
  assert (Hpos' : 0 < dy * dy + dx * dx) by lra.
  pose proof (unit_component dy dx Hpos') as Hny.
  replace (dy * dy + dx * dx) with (dx * dx + dy * dy) in Hny by ring.
  set (d := sqrt (dx * dx + dy * dy)) in *.
  set (o := 0.5 * (2 * radius - d)) in *.
  pose proof (push_bound _ _ Hnx Ho) as Px.
  pose proof (push_bound _ _ Hny Ho) as Py.
  repeat split.
  - unfold Rminus. eapply Rle_trans; [apply Rabs_triang|].
    rewrite Rabs_Ropp. lra.
  - unfold Rminus. eapply Rle_trans; [apply Rabs_triang|].
    rewrite Rabs_Ropp. lra.
  - eapply Rle_trans; [apply Rabs_triang|]. lra.
  - eapply Rle_trans; [apply Rabs_triang|]. lra.
Qed.

Lemma within_examine b0 i j w w' :
  (i < j)%nat -> (j < length (particles w))%nat ->
  within radius b0 w ->
  examine radius perturbation rand_unit i j w = Some (tt, w') ->
  within radius b0 w'.
Proof using radius_nonneg.
  intros Hij Hj HB E.
  destruct (lookup_lt_is_Some_2 (particles w) i ltac:(lia)) as [pi Hpi].
  destruct (lookup_lt_is_Some_2 (particles w) j Hj) as [pj Hpj].
  assert (Hlog : forall hit,
            within radius b0 (mkWorld (particles w) (rand_calls w)
                               (trace w ++ [(i, j, hit)]))).
  { intros hit k q Hq. simpl in Hq. destruct (HB k q Hq) as [Hx Hy].
    simpl. rewrite hits_app, plus_INR.
    assert (0 <= INR (if decide ((i, j, hit).2 = true /\
              ((i, j, hit).1.1 = k \/ (i, j, hit).1.2 = k)) then 1 else 0))
      by apply pos_INR.
    split; nra. }
  destruct (Rlt_dec
    ((Vector2.x (position pj) - Vector2.x (position pi)) *
     (Vector2.x (position pj) - Vector2.x (position pi)) +
     (Vector2.y (position pj) - Vector2.y (position pi)) *
     (Vector2.y (position pj) - Vector2.y (position pi)))
    ((2 * radius) * (2 * radius))) as [Hc|Hc].
  - rewrite (examine_hit _ _ _ i j w pi pj Hij Hpi Hpj Hc) in E.
    set (w1 := mkWorld _ _ _) in E.
    destruct (Rlt_dec
      (fst (contact pi pj) * fst (contact pi pj) +
       snd (contact pi pj) * snd (contact pi pj))
      ((2 * radius) * (2 * radius))) as [Hov|Hov].
    + rewrite (ResolveCollision_run _ _ _ w1 i j pi pj
                 ltac:(lia) Hpi Hpj Hov) in E.
      injection E as <-. simpl.
      destruct (resolved_displacement pi pj (rand_calls w) Hov)
        as (Dix & Diy & Djx & Djy).
      intros k q Hq. simpl. rewrite hits_app, plus_INR. simpl decide.
      destruct (decide (k = j)) as [->|Hkj].
      * rewrite pair_world_lookup_j in Hq by exact Hj.
        injection Hq as <-. destruct (HB j pj Hpj) as [Hx Hy].
        rewrite decide_True by (simpl; auto). simpl INR. split; lra.
      * destruct (decide (k = i)) as [->|Hki].
        -- rewrite pair_world_lookup_i in Hq by lia.
           injection Hq as <-. destruct (HB i pi Hpi) as [Hx Hy].
           rewrite decide_True by (simpl; auto). simpl INR. split; lra.
        -- rewrite pair_world_lookup_other in Hq by assumption.
           destruct (HB k q Hq) as [Hx Hy].
           rewrite decide_False by (simpl; intros [_ [H|H]]; congruence).
           simpl INR. split; lra.
    + rewrite (ResolveCollision_skip _ _ _ w1 i j pi pj Hpi Hpj Hov) in E.
      injection E as <-. apply Hlog.
  - rewrite (examine_miss _ _ _ i j w pi pj Hij Hpi Hpj Hc) in E.
    injection E as <-. apply Hlog.
Qed.

End Displacement.

Section Containment.

Variables radius areaSize perturbation : R.
Variable rand_unit : nat -> R.

(** C1, as the code has it. With [0 <= radius <= areaSize / 2], a call
    of [StepSimulation] from any particle array returns, and afterwards
    every coordinate of every particle is within [areaSize / 2 - radius]
    plus one [radius] for each call of [ResolveCollision] the particle
    took part in during the step; so a particle that took part in at
    most one has [|x| <= areaSize / 2] and [|y| <= areaSize / 2]. *)
Theorem StepSimulation_contains_up_to_collisions dt ps rc :
  0 <= radius <= areaSize / 2 ->
  exists w',
    StepSimulation radius areaSize perturbation rand_unit dt
                   (mkWorld ps rc []) = Some (tt, w') /\
    length (particles w') = length ps /\
    forall k q, particles w' !! k = Some q ->
      Rabs (Vector2.x (position q))
        <= areaSize / 2 - radius + radius * INR (hits k (trace w')) /\
      Rabs (Vector2.y (position q))
        <= areaSize / 2 - radius + radius * INR (hits k (trace w')) /\
      ((hits k (trace w') <= 1)%nat ->
         Rabs (Vector2.x (position q)) <= areaSize / 2 /\
         Rabs (Vector2.y (position q)) <= areaSize / 2).
Proof.
  intros [Hr0 Hfit]. unfold StepSimulation.
  rewrite (bind_run _ _ _ _ _ (eq_refl :
    integrate_all radius areaSize dt (mkWorld ps rc []) = Some (tt, _))).
  set (w1 := set_particles _ _).
  assert (Hn : length (particles w1) = length ps) by apply length_map.
  assert (HB1 : within radius (areaSize / 2 - radius) w1).
  { intros k q Hq. simpl in Hq. rewrite list_lookup_fmap in Hq.
    destruct (ps !! k) as [p|]; [|discriminate]. injection Hq as <-.
    simpl. rewrite Rmult_0_r, Rplus_0_r. apply integrate_inside, Hfit. }
  destruct (narrow_phase_spec radius areaSize perturbation rand_unit
              (particles w1) (within radius (areaSize / 2 - radius)))
    with (w := w1) as (w' & L & E & Hlen & HB & _).
  { intros i j w w' Hij Hl HBw Ew.
    apply (within_examine radius perturbation rand_unit Hr0 _ i j w w');
      [lia | lia | exact HBw | exact Ew]. }
  { reflexivity. }
  { exact HB1. }
  exists w'. split; [exact E|]. split; [lia|].
  intros k q Hq. destruct (HB k q Hq) as [Hx Hy].
  split; [exact Hx|]. split; [exact Hy|]. intros Hone.
  assert (INR (hits k (trace w')) <= 1).
  { change 1 with (INR 1). apply le_INR, Hone. }
  split; nra.
Qed.

End Containment.

(** ** Running the step on small arrays *)

Lemma list_singleton_char {A : Type} (l : list A) (a : A) :
  NoDup l -> a ∈ l -> (forall x, x ∈ l -> x = a) -> l = [a].
Proof.
  intros Hnd Ha Hall. destruct l as [|x l].
  - apply elem_of_nil in Ha. contradiction.
  - assert (x = a) by (apply Hall; left). subst x.
    destruct l as [|y l]; [reflexivity|].
    assert (y = a) by (apply Hall; right; left). subst y.
    apply NoDup_cons in Hnd. destruct Hnd as [Hnd _].
    exfalso. apply Hnd. left.
Qed.

Section SmallArrays.

Variables radius areaSize perturbation : R.
Variable rand_unit : nat -> R.

(** The last particle has no candidate. *)
Lemma candidates_last ps c i :
  (length ps <= S i)%nat ->
  candidates (build_grid radius areaSize ps) c i = [].
Proof.
  intros Hlen. apply elem_of_nil_inv. intros j Hj.
  apply candidates_lt in Hj. lia.
Qed.

Lemma distance_horizontal p q :
  Vector2.y (position p) = Vector2.y (position q) ->
  distance p q = Rabs (Vector2.x (position q) - Vector2.x (position p)).
Proof.
  intros Hy. unfold distance. rewrite Hy.
  rewrite <- sqrt_Rsqr_abs. f_equal. unfold Rsqr. ring.
Qed.

Lemma close_of_distance p q :
  distance p q < 2 * radius -> close radius p q.
Proof.
  intros Hd. unfold close. rewrite <- distance_sqr.
  pose proof (distance_nonneg p q). nra.
Qed.

(** After a resolution the two centres are [2 * radius] apart. *)
Lemma resolved_distance pi pj rc :
  0 < distance pi pj < 2 * radius ->
  distance (resolved_i radius perturbation rand_unit pi pj rc)
           (resolved_j radius perturbation rand_unit pi pj rc) = 2 * radius.
Proof.
  intros Hd. unfold resolved_i, resolved_j.
  rewrite (contact_apart _ _ (proj1 Hd)). cbv zeta. simpl fst. simpl snd.
  change (sqrt _) with (distance pi pj).
  pose proof (distance_sqr pi pj) as Hsq.
  unfold distance at 1. simpl.
  transitivity (sqrt ((2 * radius) * (2 * radius)));
    [|apply sqrt_square; lra].
  f_equal. apply (separation_algebra _ _ _ _ (distance pi pj) radius);
    [apply Hd | exact Hsq].
Qed.

(** A step on two particles that integrate to [q0] and [q1], closer than
    [2 * radius] and overlapping for [ResolveCollision]: one resolution of
    the pair [(0, 1)]. *)
Lemma StepSimulation_two dt p0 p1 rc :
  let q0 := integrate radius areaSize dt p0 in
  let q1 := integrate radius areaSize dt p1 in
  distance q0 q1 < 2 * radius ->
  overlapping radius q0 q1 ->
  StepSimulation radius areaSize perturbation rand_unit dt
                 (mkWorld [p0; p1] rc []) =
  Some (tt, mkWorld [resolved_i radius perturbation rand_unit q0 q1 rc;
                     resolved_j radius perturbation rand_unit q0 q1 rc]
                    (S (S (S (S rc)))) [(0%nat, 1%nat, true)]).
Proof.
  intros q0 q1 Hd Hov. unfold StepSimulation.
  rewrite (bind_run _ _ _ _ _ (eq_refl :
    integrate_all radius areaSize dt (mkWorld [p0; p1] rc []) = Some (tt, _))).
  unfold set_particles. simpl map. fold q0 q1. simpl rand_calls. simpl trace.
  set (w1 := mkWorld [q0; q1] rc []).
  change (particles w1) with [q0; q1].
  set (grid := build_grid radius areaSize [q0; q1]).
  unfold narrow_phase. change (seq 0 (length (particles w1))) with [0; 1]%nat.
  simpl for_each.
  assert (Hcand : candidates grid (cell_of radius areaSize q0) 0 = [1%nat]).
  { apply list_singleton_char.
    - apply NoDup_candidates.
    - apply elem_of_candidates. split; [lia|].
      exists (cell_of radius areaSize q1). split; [reflexivity|]. simpl.
      split; apply cell_index_adjacent; unfold cellSize.
      + pose proof (distance_bounds_x q0 q1). lra.
      + pose proof (distance_bounds_y q0 q1). lra.
    - intros j Hj. apply candidates_lt in Hj. simpl in Hj. lia. }
  assert (E0 : scan radius areaSize perturbation rand_unit grid 0 w1 =
               Some (tt, mkWorld
                 [resolved_i radius perturbation rand_unit q0 q1 rc;
                  resolved_j radius perturbation rand_unit q0 q1 rc]
                 (S (S (S (S rc)))) [(0%nat, 1%nat, true)])).
  { rewrite scan_candidates.
    rewrite (bind_run _ _ _ _ _ (particle_at_run 0 w1 q0 eq_refl)).
    rewrite Hcand. simpl for_each.
    erewrite bind_run; [reflexivity|].
    rewrite (examine_hit _ _ _ 0 1 w1 q0 q1 ltac:(lia) eq_refl eq_refl
               (close_of_distance q0 q1 Hd)).
    rewrite (ResolveCollision_run _ _ _
               (mkWorld [q0; q1] rc [(0%nat, 1%nat, true)])
               0 1 q0 q1 ltac:(lia) eq_refl eq_refl
               Hov).
    reflexivity. }
  rewrite (bind_run _ _ _ _ _ E0). cbv beta.
  set (w2 := mkWorld _ _ _).
  assert (E1 : scan radius areaSize perturbation rand_unit grid 1 w2 =
               Some (tt, w2)).
  { rewrite scan_candidates.
    rewrite (bind_run _ _ _ _ _ (particle_at_run 1 w2 _ eq_refl)).
    unfold grid. rewrite candidates_last by (simpl; lia). reflexivity. }
  rewrite (bind_run _ _ _ _ _ E1). reflexivity.
Qed.

End SmallArrays.

Section Scenario.

Variable areaSize : R.
Variable rand_unit : nat -> R.

(** C8. Two particles of radius 1 at [(-0.4, 0)] and
    [(0.4, 0)] with velocities [(5, 0)] and [(-5, 0)], no perturbation, in
    a domain of side at least 6: after one [StepSimulation] with a [dt]
    that leaves the integrated centres apart and closer than [2 * radius],
    the centres are exactly [2 * radius] apart and the velocities are
    [(-5, 0)] and [(5, 0)]. *)
Theorem head_on_scenario dt rc :
  6 <= areaSize ->
  0 < Rabs (0.8 - 10 * dt) < 2 * 1 ->
  exists w' q0 q1,
    StepSimulation 1 areaSize 0 rand_unit dt
      (mkWorld [mkParticle (Vector2.mk (-0.4) 0) (Vector2.mk 5 0);
                mkParticle (Vector2.mk 0.4 0) (Vector2.mk (-5) 0)] rc [])
      = Some (tt, w') /\
    particles w' = [q0; q1] /\
    2 * 1 <= distance q0 q1 /\
    distance q0 q1 = 2 * 1 /\
    velocity q0 = Vector2.mk (-5) 0 /\
    velocity q1 = Vector2.mk 5 0.
Proof.
  intros Hbig Hdt.
  set (p0 := mkParticle (Vector2.mk (-0.4) 0) (Vector2.mk 5 0)).
  set (p1 := mkParticle (Vector2.mk 0.4 0) (Vector2.mk (-5) 0)).
  set (q0 := integrate 1 areaSize dt p0).
  set (q1 := integrate 1 areaSize dt p1).
  assert (Hh : half areaSize = areaSize / 2) by (unfold half; lra).
  assert (Hrange : -0.12 < dt < 0.28).
  { destruct Hdt as [_ H]. apply Rabs_def2 in H. lra. }
  assert (X0 : Vector2.x (position q0) = -0.4 + 5 * dt).
  { unfold q0. rewrite integrate_position_x. simpl.
    repeat (destruct (Rlt_dec _ _) || destruct (Rgt_dec _ _)); lra. }
  assert (Y0 : Vector2.y (position q0) = 0).
  { unfold q0. rewrite integrate_position_y. simpl.
    repeat (destruct (Rlt_dec _ _) || destruct (Rgt_dec _ _)); lra. }
  assert (X1 : Vector2.x (position q1) = 0.4 - 5 * dt).
  { unfold q1. rewrite integrate_position_x. simpl.
    repeat (destruct (Rlt_dec _ _) || destruct (Rgt_dec _ _)); lra. }
  assert (Y1 : Vector2.y (position q1) = 0).
  { unfold q1. rewrite integrate_position_y. simpl.
    repeat (destruct (Rlt_dec _ _) || destruct (Rgt_dec _ _)); lra. }
  assert (VX0 : Vector2.x (velocity q0) = 5).
  { unfold q0. rewrite integrate_velocity_x. simpl.
    repeat (destruct (Rlt_dec _ _) || destruct (Rgt_dec _ _)); lra. }
  assert (VY0 : Vector2.y (velocity q0) = 0).
  { unfold q0. rewrite integrate_velocity_y. simpl.
    repeat (destruct (Rlt_dec _ _) || destruct (Rgt_dec _ _)); lra. }
  assert (VX1 : Vector2.x (velocity q1) = -5).
  { unfold q1. rewrite integrate_velocity_x. simpl.
    repeat (destruct (Rlt_dec _ _) || destruct (Rgt_dec _ _)); lra. }
  assert (VY1 : Vector2.y (velocity q1) = 0).
  { unfold q1. rewrite integrate_velocity_y. simpl.
    repeat (destruct (Rlt_dec _ _) || destruct (Rgt_dec _ _)); lra. }
  assert (Hd : 0 < distance q0 q1 < 2 * 1).
  { rewrite distance_horizontal by congruence. rewrite X0, X1.
    replace (0.4 - 5 * dt - (-0.4 + 5 * dt)) with (0.8 - 10 * dt) by lra.
    exact Hdt. }
  eexists _, _, _.
  split; [apply (StepSimulation_two 1 areaSize 0 rand_unit dt p0 p1 rc
                    (proj2 Hd) (overlapping_apart 1 q0 q1 Hd))|].
  split; [reflexivity|].
  fold q0 q1. rewrite (resolved_distance 1 0 rand_unit q0 q1 rc Hd).
  split; [lra|]. split; [reflexivity|].
  unfold resolved_i, resolved_j. simpl. rewrite VX0, VY0, VX1, VY1.
  split; f_equal; lra.
Qed.

End Scenario.

Lemma filter_all {A : Type} (P : A -> Prop) `{forall a, Decision (P a)}
    (l : list A) :
  (forall a, a ∈ l -> P a) -> filter P l = l.
Proof.
  induction l as [|a l IH]; intros Hall; [reflexivity|].
  rewrite filter_cons, decide_True by (apply Hall; left).
  f_equal. apply IH. intros b Hb. apply Hall. right. exact Hb.
Qed.

Lemma filter_none {A : Type} (P : A -> Prop) `{forall a, Decision (P a)}
    (l : list A) :
  (forall a, a ∈ l -> ~ P a) -> filter P l = [].
Proof.
  induction l as [|a l IH]; intros Hall; [reflexivity|].
  rewrite filter_cons, decide_False by (apply Hall; left).
  apply IH. intros b Hb. apply Hall. right. exact Hb.
Qed.

Section SameCell.

Variables radius areaSize : R.
Variable ps : list Particle.
Variable c0 : Cell.t.
Hypothesis same_cell : forall k p, ps !! k = Some p -> cell_of radius areaSize p = c0.

Lemma cell_at_same k : (k < length ps)%nat -> cell_at radius areaSize ps k = Some c0.
Proof using same_cell.
  intros Hk. unfold cell_at.
  destruct (lookup_lt_is_Some_2 ps k Hk) as [p Hp]. rewrite Hp. simpl.
  f_equal. apply (same_cell k p Hp).
Qed.

Lemma bucket_same_cell_hit :
  bucket (build_grid radius areaSize ps) c0 = seq 0 (length ps).
Proof using same_cell.
  rewrite bucket_build_grid. apply filter_all.
  intros k Hk. apply elem_of_seq in Hk. apply cell_at_same. lia.
Qed.

Lemma bucket_same_cell_miss c :
  c <> c0 -> bucket (build_grid radius areaSize ps) c = [].
Proof using same_cell.
  intros Hc. rewrite bucket_build_grid. apply filter_none.
  intros k Hk. apply elem_of_seq in Hk. rewrite cell_at_same by lia.
  congruence.
Qed.

(** When the whole array lies in one cell, the scan of that cell meets
    the indices in increasing order. *)
Lemma candidates_same_cell i :
  candidates (build_grid radius areaSize ps) c0 i =
  filter (fun j => (i < j)%nat) (seq 0 (length ps)).
Proof using same_cell.
  unfold candidates. f_equal. unfold neighbours.
  rewrite !bind_cons. simpl mbind.
  replace (Cell.mk (Cell.x c0) (Cell.y c0)) with c0
    by (destruct c0; reflexivity).
  rewrite bucket_same_cell_hit.
  rewrite !bucket_same_cell_miss
    by (intros H; pose proof (f_equal Cell.x H) as Hx;
        pose proof (f_equal Cell.y H) as Hy; simpl in Hx, Hy; lia).
  rewrite !app_nil_r. reflexivity.
Qed.

End SameCell.

Section Horizontal.

Variables radius perturbation : R.
Variable rand_unit : nat -> R.

(** Two particles on a horizontal line, apart and closer than
    [2 * radius], end at their midpoint plus and minus [radius]. *)
Lemma resolved_horizontal pi pj rc :
  Vector2.y (position pi) = Vector2.y (position pj) ->
  0 < Rabs (Vector2.x (position pj) - Vector2.x (position pi)) < 2 * radius ->
  let xi := Vector2.x (position pi) in
  let xj := Vector2.x (position pj) in
  let ri := resolved_i radius perturbation rand_unit pi pj rc in
  let rj := resolved_j radius perturbation rand_unit pi pj rc in
  0 < distance pi pj < 2 * radius /\
  Vector2.y (position ri) = Vector2.y (position pi) /\
  Vector2.y (position rj) = Vector2.y (position pj) /\
  (xj < xi -> Vector2.x (position ri) = (xi + xj) / 2 + radius /\
              Vector2.x (position rj) = (xi + xj) / 2 - radius) /\
  (xi < xj -> Vector2.x (position ri) = (xi + xj) / 2 - radius /\
              Vector2.x (position rj) = (xi + xj) / 2 + radius).
Proof.
  intros Hy Hx xi xj ri rj.
  assert (Hd : distance pi pj = Rabs (xj - xi))
    by (apply distance_horizontal, Hy).
  assert (Hd' : 0 < distance pi pj < 2 * radius) by (rewrite Hd; exact Hx).
  split; [exact Hd'|].
  unfold ri, rj, resolved_i, resolved_j.
  rewrite (contact_apart _ _ (proj1 Hd')). cbv zeta. simpl fst. simpl snd.
  change (sqrt _) with (distance pi pj). rewrite Hd. simpl.
  fold xi xj. rewrite Hy.
  replace (Vector2.y (position pj) - Vector2.y (position pj)) with 0 by lra.
  fold xi xj in Hx.
  assert (Hnz : Rabs (xj - xi) <> 0) by lra.
  assert (Hz : 0 / Rabs (xj - xi) = 0) by (field; exact Hnz).
  rewrite Hz.
  split; [lra|]. split; [lra|].
  split; intros Hlt.
  - rewrite (Rabs_left (xj - xi)) in * by lra.
    assert (Hn : (xj - xi) / - (xj - xi) = -1) by (field; lra).
    rewrite Hn. split; lra.
  - rewrite (Rabs_right (xj - xi)) in * by lra.
    assert (Hn : (xj - xi) / (xj - xi) = 1) by (field; lra).
    rewrite Hn. split; lra.
Qed.

End Horizontal.

(** ** Three particles in a row near the right wall *)

(** Against C1 as stated. With the constants of the source, three
    particles at rest at [(296, 0)], [(295, 0)] and [(294, 0)]: the first
    is pushed to the right by its collision with the second and again by
    its collision with the third, and ends the step at [x = 300.75],
    outside [|x| <= areaSize / 2 = 300]. *)
Lemma containment_counterexample :
  exists w' q,
    StepSimulation Part2.radius Part2.areaSize Part2.p (fun _ => 0)
      Part2.dtFixed
      (mkWorld [mkParticle (Vector2.mk 296 0) (Vector2.mk 0 0);
                mkParticle (Vector2.mk 295 0) (Vector2.mk 0 0);
                mkParticle (Vector2.mk 294 0) (Vector2.mk 0 0)] 0 [])
      = Some (tt, w') /\
    particles w' !! 0%nat = Some q /\
    Vector2.x (position q) = 300.75 /\
    ~ Rabs (Vector2.x (position q)) <= Part2.areaSize / 2.
Proof.
  set (rnd := fun _ : nat => 0).
  set (pa := mkParticle (Vector2.mk 296 0) (Vector2.mk 0 0)).
  set (pb := mkParticle (Vector2.mk 295 0) (Vector2.mk 0 0)).
  set (pc := mkParticle (Vector2.mk 294 0) (Vector2.mk 0 0)).
  unfold StepSimulation.
  rewrite (bind_run _ _ _ _ _ (eq_refl :
    integrate_all Part2.radius Part2.areaSize Part2.dtFixed
                  (mkWorld [pa; pb; pc] 0 []) = Some (tt, _))).
  unfold set_particles. simpl map. simpl rand_calls. simpl trace.
  set (qa := integrate Part2.radius Part2.areaSize Part2.dtFixed pa).
  set (qb := integrate Part2.radius Part2.areaSize Part2.dtFixed pb).
  set (qc := integrate Part2.radius Part2.areaSize Part2.dtFixed pc).
  assert (Hh : half Part2.areaSize = 300)
    by (unfold half, Part2.areaSize; lra).
  assert (Hr : Part2.radius = 4) by reflexivity.
  assert (XA : Vector2.x (position qa) = 296).
  { unfold qa. rewrite integrate_position_x. simpl.
    repeat (destruct (Rlt_dec _ _) || destruct (Rgt_dec _ _)); lra. }
  assert (YA : Vector2.y (position qa) = 0).
  { unfold qa. rewrite integrate_position_y. simpl.
    repeat (destruct (Rlt_dec _ _) || destruct (Rgt_dec _ _)); lra. }
  assert (XB : Vector2.x (position qb) = 295).
  { unfold qb. rewrite integrate_position_x. simpl.
    repeat (destruct (Rlt_dec _ _) || destruct (Rgt_dec _ _)); lra. }
  assert (YB : Vector2.y (position qb) = 0).
  { unfold qb. rewrite integrate_position_y. simpl.
    repeat (destruct (Rlt_dec _ _) || destruct (Rgt_dec _ _)); lra. }
  assert (XC : Vector2.x (position qc) = 294).
  { unfold qc. rewrite integrate_position_x. simpl.
    repeat (destruct (Rlt_dec _ _) || destruct (Rgt_dec _ _)); lra. }
  assert (YC : Vector2.y (position qc) = 0).
  { unfold qc. rewrite integrate_position_y. simpl.
    repeat (destruct (Rlt_dec _ _) || destruct (Rgt_dec _ _)); lra. }
  set (w1 := mkWorld [qa; qb; qc] 0 []).
  change (particles w1) with [qa; qb; qc].
  set (grid := build_grid Part2.radius Part2.areaSize [qa; qb; qc]).
  (* all three in cell (74, 37) *)
  assert (Hcell : forall q, Vector2.y (position q) = 0 ->
            294 <= Vector2.x (position q) <= 296 ->
            cell_of Part2.radius Part2.areaSize q = Cell.mk 74 37).
  { intros q Hy Hx. unfold cell_of, cell_index, cellSize. rewrite Hh, Hr, Hy.
    f_equal; apply Zfloor_eq; lra. }
  assert (Hsame : forall k q, [qa; qb; qc] !! k = Some q ->
            cell_of Part2.radius Part2.areaSize q = Cell.mk 74 37).
  { intros [|[|[|k]]] q Hq; simpl in Hq; try discriminate;
      injection Hq as <-; apply Hcell; lra. }
  (* the first particle meets the second, then the third *)
  set (ra := resolved_i Part2.radius Part2.p rnd qa qb 0).
  set (rb := resolved_j Part2.radius Part2.p rnd qa qb 0).
  destruct (resolved_horizontal Part2.radius Part2.p rnd qa qb 0)
    as (Dab & YRA & YRB & Hab & _); [congruence | rewrite XA, XB, Hr |].
  { rewrite Rabs_left by lra. lra. }
  fold ra rb in YRA, YRB, Hab.
  destruct Hab as [XRA XRB]; [lra|]. rewrite XA, XB, Hr in XRA, XRB.
  set (ra2 := resolved_i Part2.radius Part2.p rnd ra qc 4).
  set (rc2 := resolved_j Part2.radius Part2.p rnd ra qc 4).
  destruct (resolved_horizontal Part2.radius Part2.p rnd ra qc 4)
    as (Dac & YRA2 & YRC2 & Hac & _); [congruence | rewrite XRA, XC, Hr |].
  { rewrite Rabs_left by lra. lra. }
  fold ra2 rc2 in YRA2, YRC2, Hac.
  destruct Hac as [XRA2 XRC2]; [lra|]. rewrite XRA, XC, Hr in XRA2, XRC2.
  set (w3 := mkWorld [ra2; rb; rc2] 8 [(0%nat, 1%nat, true); (0%nat, 2%nat, true)]).
  assert (E0 : scan Part2.radius Part2.areaSize Part2.p rnd grid 0 w1 =
               Some (tt, w3)).
  { rewrite scan_candidates.
    rewrite (bind_run _ _ _ _ _ (particle_at_run 0 w1 qa eq_refl)).
    rewrite (Hsame 0%nat qa eq_refl).
    unfold grid. rewrite (candidates_same_cell _ _ _ _ Hsame 0).
    change (filter _ _) with [1; 2]%nat. simpl for_each.
    erewrite bind_run; cycle 1.
    { rewrite (examine_hit _ _ _ 0 1 w1 qa qb ltac:(lia) eq_refl eq_refl
                 (close_of_distance _ qa qb (proj2 Dab))).
      apply (ResolveCollision_run _ _ _
               (mkWorld [qa; qb; qc] 0 [(0%nat, 1%nat, true)])
               0 1 qa qb ltac:(lia) eq_refl eq_refl
               (overlapping_apart _ qa qb Dab)). }
    cbv beta. erewrite bind_run; [reflexivity|].
    change (pair_world _ _ _ _ _ _ _)
      with (mkWorld [ra; rb; qc] 4 [(0%nat, 1%nat, true)]).
    rewrite (examine_hit _ _ _ 0 2
               (mkWorld [ra; rb; qc] 4 [(0%nat, 1%nat, true)])
               ra qc ltac:(lia) eq_refl eq_refl
               (close_of_distance _ ra qc (proj2 Dac))).
    apply (ResolveCollision_run _ _ _
             (mkWorld [ra; rb; qc] 4 [(0%nat, 1%nat, true); (0%nat, 2%nat, true)])
             0 2 ra qc ltac:(lia) eq_refl eq_refl
             (overlapping_apart _ ra qc Dac)). }
  (* the second particle meets the third *)
  set (rb3 := resolved_i Part2.radius Part2.p rnd rb rc2 8).
  set (rc3 := resolved_j Part2.radius Part2.p rnd rb rc2 8).
  destruct (resolved_horizontal Part2.radius Part2.p rnd rb rc2 8)
    as (Dbc & _); [congruence | rewrite XRB, XRC2, Hr |].
  { rewrite Rabs_right by lra. lra. }
  set (w4 := mkWorld [ra2; rb3; rc3] 12
               [(0%nat, 1%nat, true); (0%nat, 2%nat, true); (1%nat, 2%nat, true)]).
  assert (E1 : scan Part2.radius Part2.areaSize Part2.p rnd grid 1 w3 =
               Some (tt, w4)).
  { rewrite scan_candidates.
    rewrite (bind_run _ _ _ _ _ (particle_at_run 1 w3 rb eq_refl)).
    assert (Hcand : candidates grid (cell_of Part2.radius Part2.areaSize rb) 1
                    = [2%nat]).
    { apply list_singleton_char.
      - apply NoDup_candidates.
      - apply elem_of_candidates. split; [lia|].
        exists (cell_of Part2.radius Part2.areaSize qc).
        split; [reflexivity|]. unfold cell_of. cbn [Cell.x Cell.y].
        split; apply cell_index_adjacent; unfold cellSize;
          rewrite Hr, ?XC, ?XRB, ?YC, ?YRB, ?YB.
        + rewrite Rabs_right by lra. lra.
        + rewrite Rabs_right by lra. lra.
      - intros j Hj. apply candidates_lt in Hj. simpl in Hj. lia. }
    rewrite Hcand. simpl for_each.
    erewrite bind_run; [reflexivity|].
    rewrite (examine_hit _ _ _ 1 2 w3 rb rc2 ltac:(lia) eq_refl eq_refl
               (close_of_distance _ rb rc2 (proj2 Dbc))).
    apply (ResolveCollision_run _ _ _
             (mkWorld [ra2; rb; rc2] 8
                [(0%nat, 1%nat, true); (0%nat, 2%nat, true); (1%nat, 2%nat, true)])
             1 2 rb rc2 ltac:(lia) eq_refl eq_refl
             (overlapping_apart _ rb rc2 Dbc)). }
  assert (E2 : scan Part2.radius Part2.areaSize Part2.p rnd grid 2 w4 =
               Some (tt, w4)).
  { rewrite scan_candidates.
    rewrite (bind_run _ _ _ _ _ (particle_at_run 2 w4 rc3 eq_refl)).
    unfold grid. rewrite candidates_last by (simpl; lia). reflexivity. }
  exists w4, ra2. split.
  - unfold narrow_phase.
    change (seq 0 (length (particles w1))) with [0; 1; 2]%nat.
    simpl for_each.
    rewrite (bind_run _ _ _ _ _ E0). cbv beta.
    rewrite (bind_run _ _ _ _ _ E1). cbv beta.
    rewrite (bind_run _ _ _ _ _ E2). reflexivity.
  - split; [reflexivity|]. split; [lra|].
    rewrite XRA2, Rabs_right by lra. unfold Part2.areaSize. lra.
Qed.

(** ** Three particles in a row and a grid that is not rebuilt *)

(** Against C2 as stated. With the constants of the source, three
    particles at rest at [(2, 0)], [(-3, 0)] and [(4.5, 0)]. After the
    integration the second and the third are 7.5 apart, closer than
    [2 * radius = 8], and their cells are adjacent. The scan of the first
    particle resolves its collision with the second, which is moved to
    [(-4.5, 0)], one cell to the left; when the turn of the second comes,
    the bucket that still holds the third is two cells away, and the pair
    is never tested. *)
Lemma stale_grid_counterexample :
  exists w' qb qc,
    map (integrate Part2.radius Part2.areaSize Part2.dtFixed)
        [mkParticle (Vector2.mk 2 0) (Vector2.mk 0 0);
         mkParticle (Vector2.mk (-3) 0) (Vector2.mk 0 0);
         mkParticle (Vector2.mk 4.5 0) (Vector2.mk 0 0)] !! 1%nat = Some qb /\
    map (integrate Part2.radius Part2.areaSize Part2.dtFixed)
        [mkParticle (Vector2.mk 2 0) (Vector2.mk 0 0);
         mkParticle (Vector2.mk (-3) 0) (Vector2.mk 0 0);
         mkParticle (Vector2.mk 4.5 0) (Vector2.mk 0 0)] !! 2%nat = Some qc /\
    distance qb qc < 2 * Part2.radius /\
    cell_of Part2.radius Part2.areaSize qb = Cell.mk 37 37 /\
    cell_of Part2.radius Part2.areaSize qc = Cell.mk 38 37 /\
    StepSimulation Part2.radius Part2.areaSize Part2.p (fun _ => 0)
      Part2.dtFixed
      (mkWorld [mkParticle (Vector2.mk 2 0) (Vector2.mk 0 0);
                mkParticle (Vector2.mk (-3) 0) (Vector2.mk 0 0);
                mkParticle (Vector2.mk 4.5 0) (Vector2.mk 0 0)] 0 [])
      = Some (tt, w') /\
    trace w' = [(0%nat, 1%nat, true); (0%nat, 2%nat, true)] /\
    tests_of 1 2 (trace w') = 0%nat.
Proof.
  set (rnd := fun _ : nat => 0).
  set (pa := mkParticle (Vector2.mk 2 0) (Vector2.mk 0 0)).
  set (pb := mkParticle (Vector2.mk (-3) 0) (Vector2.mk 0 0)).
  set (pc := mkParticle (Vector2.mk 4.5 0) (Vector2.mk 0 0)).
  simpl map.
  set (qa := integrate Part2.radius Part2.areaSize Part2.dtFixed pa).
  set (qb := integrate Part2.radius Part2.areaSize Part2.dtFixed pb).
  set (qc := integrate Part2.radius Part2.areaSize Part2.dtFixed pc).
  assert (Hh : half Part2.areaSize = 300)
    by (unfold half, Part2.areaSize; lra).
  assert (Hr : Part2.radius = 4) by reflexivity.
  assert (XA : Vector2.x (position qa) = 2).
  { unfold qa. rewrite integrate_position_x. simpl.
    repeat (destruct (Rlt_dec _ _) || destruct (Rgt_dec _ _)); lra. }
  assert (YA : Vector2.y (position qa) = 0).
  { unfold qa. rewrite integrate_position_y. simpl.
    repeat (destruct (Rlt_dec _ _) || destruct (Rgt_dec _ _)); lra. }
  assert (XB : Vector2.x (position qb) = -3).
  { unfold qb. rewrite integrate_position_x. simpl.
    repeat (destruct (Rlt_dec _ _) || destruct (Rgt_dec _ _)); lra. }
  assert (YB : Vector2.y (position qb) = 0).
  { unfold qb. rewrite integrate_position_y. simpl.
    repeat (destruct (Rlt_dec _ _) || destruct (Rgt_dec _ _)); lra. }
  assert (XC : Vector2.x (position qc) = 4.5).
  { unfold qc. rewrite integrate_position_x. simpl.
    repeat (destruct (Rlt_dec _ _) || destruct (Rgt_dec _ _)); lra. }
  assert (YC : Vector2.y (position qc) = 0).
  { unfold qc. rewrite integrate_position_y. simpl.
    repeat (destruct (Rlt_dec _ _) || destruct (Rgt_dec _ _)); lra. }
  assert (Hcell : forall q cx, Vector2.y (position q) = 0 ->
            IZR cx <= (Vector2.x (position q) + 300) / 8 < IZR cx + 1 ->
            cell_of Part2.radius Part2.areaSize q = Cell.mk cx 37).
  { intros q cx Hy Hx. unfold cell_of, cell_index, cellSize. rewrite Hh, Hr, Hy.
    f_equal; apply Zfloor_eq; replace (2 * 4) with 8 by lra; lra. }
  assert (CA : cell_of Part2.radius Part2.areaSize qa = Cell.mk 37 37)
    by (apply Hcell; [exact YA | rewrite XA; lra]).
  assert (CB : cell_of Part2.radius Part2.areaSize qb = Cell.mk 37 37)
    by (apply Hcell; [exact YB | rewrite XB; lra]).
  assert (CC : cell_of Part2.radius Part2.areaSize qc = Cell.mk 38 37)
    by (apply Hcell; [exact YC | rewrite XC; lra]).
  set (w1 := mkWorld [qa; qb; qc] 0 []).
  set (grid := build_grid Part2.radius Part2.areaSize [qa; qb; qc]).
  assert (Hb : forall c, bucket grid c =
            if decide (c = Cell.mk 37 37) then [0; 1]%nat
            else if decide (c = Cell.mk 38 37) then [2%nat] else []).
  { intros c. unfold grid. rewrite bucket_build_grid.
    change (seq 0 (length [qa; qb; qc])) with [0; 1; 2]%nat.
    rewrite !filter_cons, filter_nil.
    change (cell_at Part2.radius Part2.areaSize [qa; qb; qc] 0)
      with (Some (cell_of Part2.radius Part2.areaSize qa)).
    change (cell_at Part2.radius Part2.areaSize [qa; qb; qc] 1)
      with (Some (cell_of Part2.radius Part2.areaSize qb)).
    change (cell_at Part2.radius Part2.areaSize [qa; qb; qc] 2)
      with (Some (cell_of Part2.radius Part2.areaSize qc)).
    rewrite CA, CB, CC.
    repeat case_decide; simplify_eq; reflexivity. }
  (* the first particle meets the second, then the third *)
  set (ra := resolved_i Part2.radius Part2.p rnd qa qb 0).
  set (rb := resolved_j Part2.radius Part2.p rnd qa qb 0).
  destruct (resolved_horizontal Part2.radius Part2.p rnd qa qb 0)
    as (Dab & YRA & YRB & Hab & _); [congruence | rewrite XA, XB, Hr |].
  { rewrite Rabs_left by lra. lra. }
  fold ra rb in YRA, YRB, Hab.
  destruct Hab as [XRA XRB]; [lra|]. rewrite XA, XB, Hr in XRA, XRB.
  set (ra2 := resolved_i Part2.radius Part2.p rnd ra qc 4).
  set (rc2 := resolved_j Part2.radius Part2.p rnd ra qc 4).
  destruct (resolved_horizontal Part2.radius Part2.p rnd ra qc 4)
    as (Dac & _); [congruence | rewrite XRA, XC, Hr |].
  { rewrite Rabs_right by lra. lra. }
  assert (CRB : cell_of Part2.radius Part2.areaSize rb = Cell.mk 36 37)
    by (apply Hcell; [congruence | rewrite XRB; lra]).
  set (w3 := mkWorld [ra2; rb; rc2] 8 [(0%nat, 1%nat, true); (0%nat, 2%nat, true)]).
  assert (E0 : scan Part2.radius Part2.areaSize Part2.p rnd grid 0 w1 =
               Some (tt, w3)).
  { rewrite scan_candidates.
    rewrite (bind_run _ _ _ _ _ (particle_at_run 0 w1 qa eq_refl)).
    rewrite CA.
    assert (Hcand : candidates grid (Cell.mk 37 37) 0 = [1; 2]%nat).
    { unfold candidates, neighbours. cbn [Cell.x Cell.y].
      rewrite !bind_cons. simpl mbind. rewrite !Hb. reflexivity. }
    rewrite Hcand. simpl for_each.
    erewrite bind_run; cycle 1.
    { rewrite (examine_hit _ _ _ 0 1 w1 qa qb ltac:(lia) eq_refl eq_refl
                 (close_of_distance _ qa qb (proj2 Dab))).
      apply (ResolveCollision_run _ _ _
               (mkWorld [qa; qb; qc] 0 [(0%nat, 1%nat, true)])
               0 1 qa qb ltac:(lia) eq_refl eq_refl
               (overlapping_apart _ qa qb Dab)). }
    cbv beta. erewrite bind_run; [reflexivity|].
    change (pair_world _ _ _ _ _ _ _)
      with (mkWorld [ra; rb; qc] 4 [(0%nat, 1%nat, true)]).
    rewrite (examine_hit _ _ _ 0 2
               (mkWorld [ra; rb; qc] 4 [(0%nat, 1%nat, true)])
               ra qc ltac:(lia) eq_refl eq_refl
               (close_of_distance _ ra qc (proj2 Dac))).
    apply (ResolveCollision_run _ _ _
             (mkWorld [ra; rb; qc] 4 [(0%nat, 1%nat, true); (0%nat, 2%nat, true)])
             0 2 ra qc ltac:(lia) eq_refl eq_refl
             (overlapping_apart _ ra qc Dac)). }
  (* the second particle has left the neighbourhood of the third *)
  assert (E1 : scan Part2.radius Part2.areaSize Part2.p rnd grid 1 w3 =
               Some (tt, w3)).
  { rewrite scan_candidates.
    rewrite (bind_run _ _ _ _ _ (particle_at_run 1 w3 rb eq_refl)).
    rewrite CRB.
    assert (Hcand : candidates grid (Cell.mk 36 37) 1 = []).
    { unfold candidates, neighbours. cbn [Cell.x Cell.y].
      rewrite !bind_cons. simpl mbind. rewrite !Hb. reflexivity. }
    rewrite Hcand. reflexivity. }
  assert (E2 : scan Part2.radius Part2.areaSize Part2.p rnd grid 2 w3 =
               Some (tt, w3)).
  { rewrite scan_candidates.
    rewrite (bind_run _ _ _ _ _ (particle_at_run 2 w3 rc2 eq_refl)).
    unfold grid. rewrite candidates_last by (simpl; lia). reflexivity. }
  exists w3, qb, qc.
  split; [reflexivity|]. split; [reflexivity|]. split.
  { rewrite distance_horizontal by congruence. rewrite XB, XC, Hr.
    rewrite Rabs_right by lra. lra. }
  split; [exact CB|]. split; [exact CC|]. split.
  - unfold StepSimulation.
    rewrite (bind_run _ _ _ _ _ (eq_refl :
      integrate_all Part2.radius Part2.areaSize Part2.dtFixed
                    (mkWorld [pa; pb; pc] 0 []) = Some (tt, _))).
    unfold set_particles. simpl map. simpl rand_calls. simpl trace.
    fold qa qb qc. fold w1. change (particles w1) with [qa; qb; qc].
    fold grid. unfold narrow_phase.
    change (seq 0 (length (particles w1))) with [0; 1; 2]%nat.
    simpl for_each.
    rewrite (bind_run _ _ _ _ _ E0). cbv beta.
    rewrite (bind_run _ _ _ _ _ E1). cbv beta.
    rewrite (bind_run _ _ _ _ _ E2). reflexivity.
  - split; reflexivity.
Qed.

(** ** The theorems at the constants of the source *)

Lemma Part2_fits : 0 <= Part2.radius <= Part2.areaSize / 2.
Proof. unfold Part2.radius, Part2.areaSize. lra. Qed.

Lemma unit_pair_distance :
  distance (mkParticle (Vector2.mk 0 0) (Vector2.mk 3 1))
           (mkParticle (Vector2.mk 1 0) (Vector2.mk (-2) 5)) = 1.
Proof.
  rewrite distance_horizontal by reflexivity. simpl.
  rewrite Rabs_right by lra. lra.
Qed.

(** A particle at [(299, 0)] moving right at speed 80 is reflected by the
    wall at [x = 300]. *)
Lemma wall_reflection_witness :
  Part2.radius <= Part2.areaSize / 2 /\
  Vector2.x (position (integrate Part2.radius Part2.areaSize Part2.dtFixed
                         (mkParticle (Vector2.mk 299 0) (Vector2.mk 80 0))))
    = half Part2.areaSize - Part2.radius /\
  Vector2.x (velocity (integrate Part2.radius Part2.areaSize Part2.dtFixed
                         (mkParticle (Vector2.mk 299 0) (Vector2.mk 80 0))))
    = - 80.
Proof.
  split; [apply Part2_fits|].
  pose proof (wall_reflection Part2.radius Part2.areaSize Part2.dtFixed
                (mkParticle (Vector2.mk 299 0) (Vector2.mk 80 0))
                (proj2 Part2_fits)) as W.
  cbv zeta in W. destruct W as [Hhigh _]. apply Hhigh.
  unfold half, Part2.radius, Part2.areaSize, Part2.dtFixed.
  cbn [position velocity Vector2.x Vector2.y]. lra.
Defined.

Lemma integrate_all_inside_witness :
  Part2.radius <= Part2.areaSize / 2 /\
  exists w',
    integrate_all Part2.radius Part2.areaSize Part2.dtFixed
      (mkWorld [mkParticle (Vector2.mk 299 0) (Vector2.mk 80 0)] 0 [])
      = Some (tt, w') /\
    length (particles w') = 1%nat /\
    forall k q, particles w' !! k = Some q ->
      Rabs (Vector2.x (position q)) <= Part2.areaSize / 2 - Part2.radius /\
      Rabs (Vector2.y (position q)) <= Part2.areaSize / 2 - Part2.radius.
Proof.
  split; [apply Part2_fits|].
  apply (integrate_all_inside Part2.radius Part2.areaSize Part2.dtFixed
           (mkWorld [mkParticle (Vector2.mk 299 0) (Vector2.mk 80 0)] 0 [])
           (proj2 Part2_fits)).
Defined.

Lemma ResolveCollision_footprint_witness :
  exists w',
    ResolveCollision Part2.radius Part2.p (fun _ => 0) 0 1
      (mkWorld [mkParticle (Vector2.mk 0 0) (Vector2.mk 3 1);
                mkParticle (Vector2.mk 1 0) (Vector2.mk (-2) 5);
                mkParticle (Vector2.mk 9 9) (Vector2.mk 0 0)] 0 [])
      = Some (tt, w') /\
    length (particles w') = 3%nat /\
    particles w' !! 2%nat = Some (mkParticle (Vector2.mk 9 9) (Vector2.mk 0 0)).
Proof.
  destruct (ResolveCollision_footprint Part2.radius Part2.p (fun _ => 0)
              (mkWorld [mkParticle (Vector2.mk 0 0) (Vector2.mk 3 1);
                        mkParticle (Vector2.mk 1 0) (Vector2.mk (-2) 5);
                        mkParticle (Vector2.mk 9 9) (Vector2.mk 0 0)] 0 [])
              0 1 _ _ eq_refl eq_refl) as (w' & E & Hlen & Hfr & _).
  exists w'. split; [exact E|]. split; [exact Hlen|].
  rewrite (Hfr 2%nat); [reflexivity | discriminate | discriminate].
Defined.

Lemma ResolveCollision_separates_witness :
  exists w' pi' pj',
    ResolveCollision Part2.radius Part2.p (fun _ => 0) 0 1
      (mkWorld [mkParticle (Vector2.mk 0 0) (Vector2.mk 3 1);
                mkParticle (Vector2.mk 1 0) (Vector2.mk (-2) 5)] 0 [])
      = Some (tt, w') /\
    particles w' !! 0%nat = Some pi' /\ particles w' !! 1%nat = Some pj' /\
    distance pi' pj' = 2 * Part2.radius.
Proof.
  destruct (ResolveCollision_separates Part2.radius Part2.p (fun _ => 0)
              (mkWorld [mkParticle (Vector2.mk 0 0) (Vector2.mk 3 1);
                        mkParticle (Vector2.mk 1 0) (Vector2.mk (-2) 5)] 0 [])
              0 1 _ _ eq_refl eq_refl)
    as (w' & pi' & pj' & E & Hi & Hj & _ & _ & _ & _ & _ & Hd).
  { rewrite unit_pair_distance. unfold Part2.radius. lra. }
  exists w', pi', pj'. auto.
Defined.

Lemma ResolveCollision_swaps_velocities_witness :
  exists w' pi' pj',
    ResolveCollision Part2.radius 0 (fun _ => 0) 0 1
      (mkWorld [mkParticle (Vector2.mk 0 0) (Vector2.mk 3 1);
                mkParticle (Vector2.mk 1 0) (Vector2.mk (-2) 5)] 0 [])
      = Some (tt, w') /\
    particles w' !! 0%nat = Some pi' /\ particles w' !! 1%nat = Some pj' /\
    velocity pi' = Vector2.mk (-2) 5 /\ velocity pj' = Vector2.mk 3 1.
Proof.
  destruct (ResolveCollision_swaps_velocities Part2.radius (fun _ => 0)
              (mkWorld [mkParticle (Vector2.mk 0 0) (Vector2.mk 3 1);
                        mkParticle (Vector2.mk 1 0) (Vector2.mk (-2) 5)] 0 [])
              0 1 _ _ ltac:(discriminate) eq_refl eq_refl)
    as (w' & pi' & pj' & E & Hi & Hj & Hvi & Hvj & _).
  { rewrite unit_pair_distance. unfold Part2.radius. lra. }
  { left. rewrite unit_pair_distance. lra. }
  exists w', pi', pj'. auto.
Defined.

Lemma ResolveCollision_coincident_witness :
  exists w' pi' pj',
    ResolveCollision Part2.radius Part2.p (fun _ => 0) 0 1
      (mkWorld [mkParticle (Vector2.mk 7 2) (Vector2.mk 3 1);
                mkParticle (Vector2.mk 7 2) (Vector2.mk (-2) 5)] 0 [])
      = Some (tt, w') /\
    particles w' !! 0%nat = Some pi' /\ particles w' !! 1%nat = Some pj' /\
    distance pi' pj' = 2 * Part2.radius - 1e-3.
Proof.
  destruct (ResolveCollision_coincident Part2.radius Part2.p (fun _ => 0)
              (mkWorld [mkParticle (Vector2.mk 7 2) (Vector2.mk 3 1);
                        mkParticle (Vector2.mk 7 2) (Vector2.mk (-2) 5)] 0 [])
              0 1 _ _ ltac:(discriminate) eq_refl eq_refl eq_refl)
    as (_ & _ & w' & E & Hbig & _).
  destruct Hbig as (pi' & pj' & Hi & Hj & _ & _ & Hd & _).
  { unfold Part2.radius. lra. }
  exists w', pi', pj'. auto.
Defined.

Lemma StepSimulation_contains_up_to_collisions_witness :
  0 <= Part2.radius <= Part2.areaSize / 2 /\
  exists w',
    StepSimulation Part2.radius Part2.areaSize Part2.p (fun _ => 0)
      Part2.dtFixed
      (mkWorld [mkParticle (Vector2.mk 296 0) (Vector2.mk 0 0);
                mkParticle (Vector2.mk 295 0) (Vector2.mk 0 0);
                mkParticle (Vector2.mk 294 0) (Vector2.mk 0 0)] 0 [])
      = Some (tt, w') /\
    length (particles w') = 3%nat.
Proof.
  split; [apply Part2_fits|].
  destruct (StepSimulation_contains_up_to_collisions
              Part2.radius Part2.areaSize Part2.p (fun _ => 0) Part2.dtFixed
              [mkParticle (Vector2.mk 296 0) (Vector2.mk 0 0);
               mkParticle (Vector2.mk 295 0) (Vector2.mk 0 0);
               mkParticle (Vector2.mk 294 0) (Vector2.mk 0 0)] 0 Part2_fits)
    as (w' & E & Hlen & _).
  exists w'. auto.
Defined.

Lemma head_on_scenario_witness :
  exists w' q0 q1,
    StepSimulation 1 Part2.areaSize 0 (fun _ => 0) Part2.dtFixed
      (mkWorld [mkParticle (Vector2.mk (-0.4) 0) (Vector2.mk 5 0);
                mkParticle (Vector2.mk 0.4 0) (Vector2.mk (-5) 0)] 0 [])
      = Some (tt, w') /\
    particles w' = [q0; q1] /\
    distance q0 q1 = 2 * 1 /\
    velocity q0 = Vector2.mk (-5) 0 /\ velocity q1 = Vector2.mk 5 0.
Proof.
  destruct (head_on_scenario Part2.areaSize (fun _ => 0) Part2.dtFixed 0)
    as (w' & q0 & q1 & E & Hp & _ & Hd & Hv0 & Hv1).
  { unfold Part2.areaSize. lra. }
  { unfold Part2.dtFixed. rewrite Rabs_right by lra. lra. }
  exists w', q0, q1. auto.
Defined.

(** * Further properties of the simulation step *)

Lemma Rabs_le_bounds (a b : R) : Rabs a <= b -> - b <= a <= b.
Proof. unfold Rabs. destruct (Rcase_abs a); lra. Qed.

Section MoreIntegrator.

Variables radius areaSize : R.

(** X1. The integration and wall phase never changes the speed of a
    particle: each velocity component keeps its absolute value (a wall only
    flips its sign), so the squared speed is kept. *)
Theorem integrate_keeps_speed dt p :
  Rabs (Vector2.x (velocity (integrate radius areaSize dt p)))
    = Rabs (Vector2.x (velocity p)) /\
  Rabs (Vector2.y (velocity (integrate radius areaSize dt p)))
    = Rabs (Vector2.y (velocity p)) /\
  speed2 (integrate radius areaSize dt p) = speed2 p.
Proof.
  unfold speed2. rewrite integrate_velocity_x, integrate_velocity_y.
  cbv zeta.
  assert (Hflip : forall v, Rabs (v * -1) = Rabs v).
  { intros v. replace (v * -1) with (- v) by lra. apply Rabs_Ropp. }
  repeat (destruct (Rlt_dec _ _) || destruct (Rgt_dec _ _));
    rewrite ?Hflip; repeat split; ring.
Qed.

Lemma integrate_zero_inside p :
  Rabs (Vector2.x (position p)) <= areaSize / 2 - radius ->
  Rabs (Vector2.y (position p)) <= areaSize / 2 - radius ->
  integrate radius areaSize 0 p = p.
Proof.
  intros Hx Hy. apply Rabs_le_bounds in Hx, Hy.
  assert (Hh : half areaSize = areaSize / 2) by (unfold half; lra).
  destruct p as [[x y] [vx vy]]. unfold integrate. simpl in *.
  repeat (destruct (Rlt_dec _ _) || destruct (Rgt_dec _ _)); try lra.
  f_equal; f_equal; lra.
Qed.

(** X2. With [radius <= areaSize / 2], a step of length zero leaves a
    particle whose disk is inside the domain exactly as it is, and what the
    integration phase returns is such a particle: a clamped particle is not
    reflected a second time. *)
Theorem integrate_zero_step dt p :
  radius <= areaSize / 2 ->
  integrate radius areaSize 0 (integrate radius areaSize dt p)
    = integrate radius areaSize dt p /\
  (Rabs (Vector2.x (position p)) <= areaSize / 2 - radius ->
   Rabs (Vector2.y (position p)) <= areaSize / 2 - radius ->
   integrate radius areaSize 0 p = p).
Proof.
  intros Hfit. split.
  - destruct (integrate_inside radius areaSize dt p Hfit) as [Hx Hy].
    apply integrate_zero_inside; assumption.
  - apply integrate_zero_inside.
Qed.

End MoreIntegrator.

Section MoreResolver.

Variables radius perturbation : R.
Variable rand_unit : nat -> R.

Lemma overlapping_dec pi pj :
  {overlapping radius pi pj} + {~ overlapping radius pi pj}.
Proof. unfold overlapping. apply Rlt_dec. Qed.

(** X4. [ResolveCollision] on two distinct particles returns and never
    writes the trace. With [dx], [dy] the difference of the centres and
    [dist2 = dx * dx + dy * dy]: when [dist2] is not zero and
    [dist2 < minDist * minDist], it draws exactly four random numbers;
    when [dist2] is not zero and the test fails, it draws none and leaves
    the whole state as it was. When [dist2] is zero the test is made on
    the replaced separation [1e-3 * 1e-3 + 0 * 0], with the same two
    outcomes. *)
Theorem ResolveCollision_draws_four w i j pi pj :
  i <> j ->
  particles w !! i = Some pi -> particles w !! j = Some pj ->
  let dx := Vector2.x (position pj) - Vector2.x (position pi) in
  let dy := Vector2.y (position pj) - Vector2.y (position pi) in
  let minDist := 2 * radius in
  exists w',
    ResolveCollision radius perturbation rand_unit i j w = Some (tt, w') /\
    trace w' = trace w /\
    (dx * dx + dy * dy <> 0 -> dx * dx + dy * dy < minDist * minDist ->
     rand_calls w' = (4 + rand_calls w)%nat) /\
    (dx * dx + dy * dy <> 0 -> ~ dx * dx + dy * dy < minDist * minDist ->
     w' = w) /\
    (dx * dx + dy * dy = 0 -> 1e-3 * 1e-3 + 0 * 0 < minDist * minDist ->
     rand_calls w' = (4 + rand_calls w)%nat) /\
    (dx * dx + dy * dy = 0 -> ~ 1e-3 * 1e-3 + 0 * 0 < minDist * minDist ->
     w' = w).
Proof.
  intros Hij Hi Hj dx dy minDist.
  assert (Hguard : overlapping radius pi pj <->
            (dx * dx + dy * dy <> 0 /\
             dx * dx + dy * dy < minDist * minDist) \/
            (dx * dx + dy * dy = 0 /\
             1e-3 * 1e-3 + 0 * 0 < minDist * minDist)).
  { unfold overlapping, contact. fold dx dy.
    destruct (Req_dec_T (dx * dx + dy * dy) 0) as [Hz|Hz];
      cbn [fst snd]; fold minDist; tauto. }
  destruct (overlapping_dec pi pj) as [Hov|Hov].
  - eexists.
    split; [apply (ResolveCollision_run _ _ _ w i j pi pj Hij Hi Hj Hov)|].
    simpl. split; [reflexivity|].
    repeat split; try reflexivity; intros; exfalso; tauto.
  - exists w.
    split; [apply (ResolveCollision_skip _ _ _ w i j pi pj Hi Hj Hov)|].
    split; [reflexivity|].
    repeat split; try reflexivity; intros; exfalso; tauto.
Qed.

End MoreResolver.

(** ** The hash grid as a container *)

Lemma StronglySorted_filter_seq (P : nat -> Prop) `{forall k, Decision (P k)}
    (n a : nat) :
  StronglySorted lt (filter P (seq a n)).
Proof.
  revert a. induction n as [|n IH]; intros a; [constructor|].
  simpl seq. rewrite filter_cons. destruct (decide (P a)); [|apply IH].
  constructor; [apply IH|].
  apply Forall_forall. intros k Hk.
  apply list_elem_of_filter in Hk. destruct Hk as [_ Hk].
  apply elem_of_seq in Hk. lia.
Qed.

Section MoreGrid.

Variables radius areaSize : R.

(** X8. After the broad phase the bucket of a cell holds exactly the
    indices of the particles whose cell it is, in strictly increasing
    order: every particle is in the bucket of its own cell and in no
    other, once. *)
Theorem build_grid_partitions ps c :
  (forall k, k ∈ bucket (build_grid radius areaSize ps) c <->
             exists p, ps !! k = Some p /\ cell_of radius areaSize p = c) /\
  StronglySorted lt (bucket (build_grid radius areaSize ps) c).
Proof.
  split.
  - intros k. rewrite elem_of_bucket. unfold cell_at.
    destruct (ps !! k) as [p|]; simpl.
    + split.
      * intros H. injection H as <-. eauto.
      * intros (p' & Hp & <-). injection Hp as ->. reflexivity.
    + split; [discriminate|]. intros (p' & Hp & _). discriminate.
  - rewrite bucket_build_grid. apply StronglySorted_filter_seq.
Qed.

Lemma build_grid_from_no_empty ps idxs grid :
  (forall c, grid !! c <> Some []) ->
  forall c, build_grid_from radius areaSize ps idxs grid !! c <> Some [].
Proof.
  revert grid. induction idxs as [|i idxs IH]; intros grid Hg; [exact Hg|].
  unfold build_grid_from in *. simpl foldl. apply IH.
  destruct (ps !! i) as [p|]; [|exact Hg].
  intros c. unfold grid_push. rewrite lookup_insert.
  destruct (decide (cell_of radius areaSize p = c)) as [_|_]; [|apply Hg].
  intros H. injection H as H. destruct (bucket grid _); discriminate.
Qed.

(** X9. The grid has an entry for a cell exactly when some particle lies
    in it: [grid.find] fails for a cell if and only if no particle has that
    cell, and an entry that is found is never an empty bucket. *)
Theorem build_grid_lookup ps c :
  (build_grid radius areaSize ps !! c = None <->
   forall k p, ps !! k = Some p -> cell_of radius areaSize p <> c) /\
  (forall js, build_grid radius areaSize ps !! c = Some js ->
              js <> [] /\ js = bucket (build_grid radius areaSize ps) c).
Proof.
  assert (Hne : build_grid radius areaSize ps !! c <> Some []).
  { apply build_grid_from_no_empty. intros c'. rewrite lookup_empty.
    discriminate. }
  assert (Hb : bucket (build_grid radius areaSize ps) c = [] <->
               forall k p, ps !! k = Some p -> cell_of radius areaSize p <> c).
  { split.
    - intros Hnil k p Hp Hc.
      assert (Hin : k ∈ bucket (build_grid radius areaSize ps) c).
      { apply elem_of_bucket. unfold cell_at. rewrite Hp. simpl. congruence. }
      rewrite Hnil in Hin. apply elem_of_nil in Hin. exact Hin.
    - intros Hno. apply elem_of_nil_inv. intros k Hk.
      apply elem_of_bucket in Hk. unfold cell_at in Hk.
      destruct (ps !! k) as [p|] eqn:Hp; [|discriminate].
      injection Hk as Hk. apply (Hno k p Hp Hk). }
  split.
  - rewrite <- Hb. unfold bucket.
    destruct (build_grid radius areaSize ps !! c) as [js|]; simpl.
    + split; [discriminate|]. intros ->. contradiction.
    + tauto.
  - intros js Hjs. unfold bucket. rewrite Hjs. simpl.
    split; [|reflexivity]. intros ->. contradiction.
Qed.

End MoreGrid.

(** ** Invariants of a whole step *)

Lemma calls_app tr e :
  calls (tr ++ [e]) = (calls tr + (if decide (e.2 = true) then 1 else 0))%nat.
Proof.
  unfold calls. rewrite filter_app, length_app. f_equal.
  rewrite filter_cons, filter_nil. destruct (decide (e.2 = true)); reflexivity.
Qed.

Lemma kinetic_insert ps i p q :
  ps !! i = Some p ->
  kinetic (<[i := q]> ps) = kinetic ps - speed2 p + speed2 q.
Proof.
  revert i. induction ps as [|a ps IH]; intros i Hi; [discriminate|].
  destruct i as [|i]; simpl in *.
  - injection Hi as ->. lra.
  - rewrite (IH i Hi). lra.
Qed.

Lemma kinetic_map_integrate radius areaSize dt ps :
  kinetic (map (integrate radius areaSize dt) ps) = kinetic ps.
Proof.
  induction ps as [|a ps IH]; [reflexivity|]. simpl. rewrite IH.
  f_equal. unfold speed2. rewrite integrate_velocity_x, integrate_velocity_y.
  cbv zeta.
  repeat (destruct (Rlt_dec _ _) || destruct (Rgt_dec _ _)); ring.
Qed.

Section StepInvariants.

Variables radius areaSize perturbation : R.
Variable rand_unit : nat -> R.

(** The three ways a tested pair can go. *)
Lemma examine_cases i j u u' pi pj :
  (i < j)%nat ->
  particles u !! i = Some pi -> particles u !! j = Some pj ->
  examine radius perturbation rand_unit i j u = Some (tt, u') ->
  (close radius pi pj /\ overlapping radius pi pj /\
   u' = pair_world (particles u) i j
          (resolved_i radius perturbation rand_unit pi pj (rand_calls u))
          (resolved_j radius perturbation rand_unit pi pj (rand_calls u))
          (S (S (S (S (rand_calls u))))) (trace u ++ [(i, j, true)])) \/
  (close radius pi pj /\ ~ overlapping radius pi pj /\
   u' = mkWorld (particles u) (rand_calls u) (trace u ++ [(i, j, true)])) \/
  (~ close radius pi pj /\
   u' = mkWorld (particles u) (rand_calls u) (trace u ++ [(i, j, false)])).
Proof.
  intros Hij Hi Hj E.
  destruct (Rlt_dec
    ((Vector2.x (position pj) - Vector2.x (position pi)) *
     (Vector2.x (position pj) - Vector2.x (position pi)) +
     (Vector2.y (position pj) - Vector2.y (position pi)) *
     (Vector2.y (position pj) - Vector2.y (position pi)))
    ((2 * radius) * (2 * radius))) as [Hc|Hc].
  - rewrite (examine_hit _ _ _ i j u pi pj Hij Hi Hj Hc) in E.
    destruct (overlapping_dec radius pi pj) as [Hov|Hov].
    + rewrite (ResolveCollision_run _ _ _
                 (mkWorld (particles u) (rand_calls u) (trace u ++ [(i, j, true)]))
                 i j pi pj ltac:(lia) Hi Hj Hov) in E.
      injection E as <-. left. auto.
    + rewrite (ResolveCollision_skip _ _ _
                 (mkWorld (particles u) (rand_calls u) (trace u ++ [(i, j, true)]))
                 i j pi pj Hi Hj Hov) in E.
      injection E as <-. right. left. auto.
  - rewrite (examine_miss _ _ _ i j u pi pj Hij Hi Hj Hc) in E.
    injection E as <-. right. right. auto.
Qed.

(** A property kept by every tested pair is kept by the step. *)
Lemma StepSimulation_invariant dt (B : World -> Prop) w :
  (forall i j u u',
     (i < j < length (particles w))%nat ->
     length (particles u) = length (particles w) -> B u ->
     examine radius perturbation rand_unit i j u = Some (tt, u') -> B u') ->
  B (set_particles (map (integrate radius areaSize dt) (particles w)) w) ->
  exists w',
    StepSimulation radius areaSize perturbation rand_unit dt w = Some (tt, w') /\
    length (particles w') = length (particles w) /\ B w'.
Proof.
  intros Hstep Hstart. unfold StepSimulation.
  rewrite (bind_run _ _ _ _ _ (eq_refl :
    integrate_all radius areaSize dt w = Some (tt, _))).
  set (w1 := set_particles _ _) in *.
  assert (Hn : length (particles w1) = length (particles w)) by apply length_map.
  destruct (narrow_phase_spec radius areaSize perturbation rand_unit
              (particles w1) B) with (w := w1) as (w' & L & E & Hlen & HB & _).
  - intros i j u u' Hij Hl HBu Eu. rewrite Hn in *.
    apply (Hstep i j u u' Hij Hl HBu Eu).
  - reflexivity.
  - exact Hstart.
  - exists w'. split; [exact E|]. split; [lia | exact HB].
Qed.

Lemma close_overlapping pi pj :
  1e-3 < 2 * radius -> close radius pi pj -> overlapping radius pi pj.
Proof.
  intros Hbig Hc. unfold overlapping, close, contact in *. cbv zeta.
  destruct (Req_dec_T _ _); simpl; [nra | exact Hc].
Qed.

(** X10. When the nudge is shorter than the diameter, a step draws
    exactly four random numbers for each pair it hands to
    [ResolveCollision], and none otherwise. *)
Theorem StepSimulation_draws dt ps rc :
  1e-3 < 2 * radius ->
  exists w',
    StepSimulation radius areaSize perturbation rand_unit dt
                   (mkWorld ps rc []) = Some (tt, w') /\
    rand_calls w' = (rc + 4 * calls (trace w'))%nat.
Proof.
  intros Hbig.
  destruct (StepSimulation_invariant dt
              (fun u => rand_calls u = (rc + 4 * calls (trace u))%nat)
              (mkWorld ps rc []))
    as (w' & E & _ & HB).
  - intros i j u u' Hij Hl HB Eu. simpl in Hij, Hl.
    destruct (lookup_lt_is_Some_2 (particles u) i ltac:(lia)) as [pi Hpi].
    destruct (lookup_lt_is_Some_2 (particles u) j ltac:(lia)) as [pj Hpj].
    destruct (examine_cases i j u u' pi pj ltac:(lia) Hpi Hpj Eu)
      as [(Hc & Hov & ->)|[(Hc & Hov & ->)|(Hc & ->)]]; simpl;
      rewrite calls_app; simpl.
    + rewrite HB. lia.
    + exfalso. apply Hov, close_overlapping; assumption.
    + rewrite HB. lia.
  - simpl. unfold calls. simpl. lia.
  - exists w'. auto.
Qed.

End StepInvariants.

(** ** The scan against the grid of the snapshot *)

Section StaleGrid.

Variables radius areaSize perturbation : R.
Variable rand_unit : nat -> R.

(** One tested pair adds one entry to the trace and leaves every other
    particle as it was. *)
Lemma examine_effect a b u u' :
  (a < b < length (particles u))%nat ->
  examine radius perturbation rand_unit a b u = Some (tt, u') ->
  exists h, trace u' = trace u ++ [(a, b, h)] /\
    (h = false -> particles u' = particles u) /\
    forall k, k <> a -> k <> b -> particles u' !! k = particles u !! k.
Proof.
  intros Hab E.
  destruct (lookup_lt_is_Some_2 (particles u) a ltac:(lia)) as [pa Ha].
  destruct (lookup_lt_is_Some_2 (particles u) b ltac:(lia)) as [pb Hb].
  destruct (examine_cases radius perturbation rand_unit a b u u' pa pb
              ltac:(lia) Ha Hb E)
    as [(_ & _ & ->)|[(_ & _ & ->)|(_ & ->)]].
  - exists true. split; [reflexivity|]. split; [discriminate|].
    intros k Hka Hkb. apply pair_world_lookup_other; assumption.
  - exists true. split; [reflexivity|]. split; [discriminate|]. reflexivity.
  - exists false. split; [reflexivity|]. split; reflexivity.
Qed.

(** C2. The grid is built once, from the positions right after the
    integration, and the scan of [i] looks [i] up again when its turn
    comes. In a step from an empty trace, let [i < j] be two particles
    whose cells after the integration differ by at most 1 in each
    coordinate. Then the step returns and the pair [(i, j)] is among the
    pairs it tests, unless [i] was, before its own scan, the second
    particle of a pair handed to [ResolveCollision] in the scan of a
    particle of lower index. *)
Theorem adjacent_pair_is_tested dt ps rc i j qi qj :
  map (integrate radius areaSize dt) ps !! i = Some qi ->
  map (integrate radius areaSize dt) ps !! j = Some qj ->
  (i < j)%nat ->
  (Cell.x (cell_of radius areaSize qi) - 1
     <= Cell.x (cell_of radius areaSize qj)
     <= Cell.x (cell_of radius areaSize qi) + 1)%Z ->
  (Cell.y (cell_of radius areaSize qi) - 1
     <= Cell.y (cell_of radius areaSize qj)
     <= Cell.y (cell_of radius areaSize qi) + 1)%Z ->
  exists w',
    StepSimulation radius areaSize perturbation rand_unit dt
      (mkWorld ps rc []) = Some (tt, w') /\
    ((i, j) ∈ (fst <$> trace w') \/
     exists a, (a < i)%nat /\ (a, i, true) ∈ trace w').
Proof.
  intros Hqi Hqj Hij Hx Hy.
  unfold StepSimulation.
  rewrite (bind_run _ _ _ _ _ (eq_refl :
    integrate_all radius areaSize dt (mkWorld ps rc []) = Some (tt, _))).
  unfold set_particles. simpl rand_calls. simpl trace. simpl particles.
  set (ps1 := map (integrate radius areaSize dt) ps) in *.
  set (w1 := mkWorld ps1 rc []).
  set (grid := build_grid radius areaSize ps1).
  assert (Hcand : j ∈ candidates grid (cell_of radius areaSize qi) i).
  { apply elem_of_candidates. split; [exact Hij|].
    exists (cell_of radius areaSize qj). split; [|auto].
    unfold cell_at. rewrite Hqj. reflexivity. }
  pose (Ord := fun u : World =>
    forall a b h, (a, b, h) ∈ trace u -> (a < b)%nat).
  pose (Bst := fun u : World =>
    particles u !! i = Some qi \/
    (exists a, (a, i, true) ∈ trace u) \/
    (exists b h, (i, b, h) ∈ trace u)).
  pose (P := fun u : World =>
    (i, j) ∈ (fst <$> trace u) \/
    exists a, (a < i)%nat /\ (a, i, true) ∈ trace u).
  pose (Bx := fun (u0 : World) (F : Prop) (u : World) =>
    Ord u /\ Bst u /\ (forall e, e ∈ trace u0 -> e ∈ trace u) /\ (F -> P u)).
  assert (HBx : forall u0 F a b u u',
    (a < b < length ps1)%nat -> length (particles u) = length ps1 ->
    Bx u0 F u ->
    examine radius perturbation rand_unit a b u = Some (tt, u') ->
    Bx u0 F u').
  { intros u0 F a b u u' Hab Hlen (HO & HB & Hinc & HP) E.
    destruct (examine_effect a b u u' ltac:(lia) E) as (h & Ht & Hsame & Hoth).
    unfold Bx, Ord, Bst, P. rewrite Ht. repeat split.
    - intros a' b' h' [Hin|Hin%list_elem_of_singleton]%elem_of_app.
      + exact (HO _ _ _ Hin).
      + injection Hin as -> -> ->. lia.
    - destruct HB as [HB|[(a' & HB)|(b' & h' & HB)]].
      + destruct (decide (i = a)) as [->|Hia].
        { right. right. exists b, h. apply elem_of_app. right. left. }
        destruct (decide (i = b)) as [->|Hib].
        { destruct h.
          - right. left. exists a. apply elem_of_app. right. left.
          - left. rewrite (Hsame eq_refl). exact HB. }
        left. rewrite (Hoth i Hia Hib). exact HB.
      + right. left. exists a'. apply elem_of_app. left. exact HB.
      + right. right. exists b', h'. apply elem_of_app. left. exact HB.
    - intros e He. apply elem_of_app. left. apply Hinc, He.
    - intros HF. destruct (HP HF) as [Hin|(a' & Ha' & Hin)].
      + left. rewrite fmap_app. apply elem_of_app. left. exact Hin.
      + right. exists a'. split; [exact Ha'|]. apply elem_of_app. left.
        exact Hin. }
  pose (J := fun (seen : list nat) (u : World) =>
    length (particles u) = length ps1 /\ Ord u /\ Bst u /\
    (forall a b h, (a, b, h) ∈ trace u -> a ∈ seen) /\
    (i ∈ seen -> P u)).
  assert (Hbody : forall seen k rest,
    seq 0 (length ps1) = seen ++ k :: rest ->
    hoare (J seen)
          (scan radius areaSize perturbation rand_unit grid k)
          (fun _ => J (seen ++ [k]))).
  { intros seen k rest Hseq u (Hlen & HO & HB & Hfst & HP).
    assert (Hk : (k < length ps1)%nat).
    { assert (Hin : k ∈ seq 0 (length ps1)).
      { rewrite Hseq. apply elem_of_app. right. left. }
      apply elem_of_seq in Hin. lia. }
    assert (Hnew : k ∉ seen).
    { pose proof (NoDup_seq 0 (length ps1)) as Hnd. rewrite Hseq in Hnd.
      apply NoDup_app in Hnd as (_ & Hnd & _). intros Hin.
      apply (Hnd k Hin). left. }
    destruct (scan_spec radius areaSize perturbation rand_unit ps1
                (Bx u (i ∈ seen)) (HBx u (i ∈ seen)) k u Hk Hlen)
      as (p & u' & Hp & E & Hlen' & (HO' & HB' & Hinc & HP') & Ht).
    { unfold Bx. auto. }
    exists tt, u'. split; [exact E|]. unfold J. repeat split; auto.
    - intros a b h Hin.
      assert (Hab : (a, b) ∈ (fst <$> trace u')).
      { apply list_elem_of_fmap. exists (a, b, h). auto. }
      rewrite Ht in Hab.
      apply elem_of_app in Hab as [Hab|Hab]; apply elem_of_app.
      + left. apply list_elem_of_fmap in Hab as ([[a' b'] h'] & Heq & Hin').
        simpl in Heq. injection Heq as <- <-. exact (Hfst _ _ _ Hin').
      + right. apply list_elem_of_fmap in Hab as (c & Heq & _).
        injection Heq as -> _. left.
    - intros [Hin|Hin%list_elem_of_singleton]%elem_of_app; [auto|].
      subst k. destruct HB as [HB|[(a & HB)|(b & h & HB)]].
      + left. rewrite Ht. apply elem_of_app. right.
        apply list_elem_of_fmap. exists j. split; [reflexivity|].
        rewrite HB in Hp. injection Hp as <-. exact Hcand.
      + right. exists a. split; [exact (HO _ _ _ HB)|]. apply Hinc, HB.
      + exfalso. apply Hnew. exact (Hfst _ _ _ HB). }
  destruct (hoare_for_each J (seq 0 (length ps1)) _ Hbody w1)
    as ([] & w' & E & _ & _ & _ & _ & HP).
  { unfold J, Ord, Bst. simpl. repeat split.
    - intros a b h Hin. apply elem_of_nil in Hin. destruct Hin.
    - left. exact Hqi.
    - intros a b h Hin. apply elem_of_nil in Hin. destruct Hin.
    - intros Hin. apply elem_of_nil in Hin. destruct Hin. }
  exists w'. split.
  - exact E.
  - apply HP. apply elem_of_seq. apply lookup_lt_Some in Hqi. lia.
Qed.

End StaleGrid.

Section ZeroPerturbation.

Variables radius areaSize : R.
Variable rand_unit : nat -> R.

(** X11. With the perturbation at zero a step keeps the sum of the squared
    speeds of the particles: walls flip a sign, collisions exchange the
    velocities of a pair. *)
Theorem StepSimulation_keeps_kinetic dt w :
  exists w',
    StepSimulation radius areaSize 0 rand_unit dt w = Some (tt, w') /\
    kinetic (particles w') = kinetic (particles w).
Proof.
  assert (Hzero : forall v u : R, v + (u - 0.5) * 0 = v) by (intros; lra).
  destruct (narrow_phase_spec radius areaSize 0 rand_unit
              (map (integrate radius areaSize dt) (particles w))
              (fun u => kinetic (particles u) = kinetic (particles w)))
    with (w := set_particles (map (integrate radius areaSize dt) (particles w)) w)
    as (w' & L & E & _ & HB & _).
  - intros i j u u' Hij Hl HB Eu.
    destruct (lookup_lt_is_Some_2 (particles u) i ltac:(lia)) as [pi Hpi].
    destruct (lookup_lt_is_Some_2 (particles u) j ltac:(lia)) as [pj Hpj].
    destruct (examine_cases radius 0 rand_unit i j u u' pi pj ltac:(lia) Hpi Hpj Eu)
      as [(Hc & Hov & ->)|[(Hc & Hov & ->)|(Hc & ->)]]; simpl;
      try exact HB.
    unfold pair_world. simpl.
    rewrite (kinetic_insert _ j pj) by (rewrite list_lookup_insert_ne by lia; exact Hpj).
    rewrite (kinetic_insert _ i pi) by exact Hpi.
    rewrite HB. unfold speed2, resolved_i, resolved_j. simpl.
    rewrite !Hzero. lra.
  - reflexivity.
  - simpl. apply kinetic_map_integrate.
  - exists w'. split; [exact E | exact HB].
Qed.

End ZeroPerturbation.

Section FreeFlight.

Variables radius areaSize perturbation : R.
Variable rand_unit : nat -> R.

(** X12. A particle that takes part in no call of [ResolveCollision]
    during a step ends the step exactly where the integration and wall
    phase put it, with the velocity that phase gave it. *)
Theorem StepSimulation_untouched dt ps rc :
  exists w',
    StepSimulation radius areaSize perturbation rand_unit dt
                   (mkWorld ps rc []) = Some (tt, w') /\
    forall k, hits k (trace w') = 0%nat ->
      particles w' !! k = integrate radius areaSize dt <$> ps !! k.
Proof.
  destruct (StepSimulation_invariant radius areaSize perturbation rand_unit dt
              (fun u => forall k, hits k (trace u) = 0%nat ->
                 particles u !! k = integrate radius areaSize dt <$> ps !! k)
              (mkWorld ps rc []))
    as (w' & E & _ & HB).
  - intros i j u u' Hij Hl HB Eu. simpl in Hij, Hl.
    destruct (lookup_lt_is_Some_2 (particles u) i ltac:(lia)) as [pi Hpi].
    destruct (lookup_lt_is_Some_2 (particles u) j ltac:(lia)) as [pj Hpj].
    destruct (examine_cases radius perturbation rand_unit i j u u' pi pj
                ltac:(lia) Hpi Hpj Eu)
      as [(Hc & Hov & ->)|[(Hc & Hov & ->)|(Hc & ->)]];
      intros k Hk; simpl in Hk; rewrite hits_app in Hk; simpl in Hk.
    + destruct (decide (true = true /\ (i = k \/ j = k))) as [_|Hn]; [lia|].
      rewrite pair_world_lookup_other by (intros ->; apply Hn; auto).
      apply HB. lia.
    + simpl. apply HB. lia.
    + simpl. apply HB. lia.
  - intros k _. simpl. apply list_lookup_fmap.
  - exists w'. auto.
Qed.

(** X13. When no two particles pass the distance test after the
    integration phase, the step is the integration phase alone: no
    particle is corrected, no random number is drawn, and no tested pair is
    handed to [ResolveCollision]. An empty array and a single particle are
    instances. *)
Theorem StepSimulation_free_flight dt ps rc :
  (forall i j pi pj, (i < j)%nat ->
     ps !! i = Some pi -> ps !! j = Some pj ->
     ~ close radius (integrate radius areaSize dt pi)
                    (integrate radius areaSize dt pj)) ->
  exists w',
    StepSimulation radius areaSize perturbation rand_unit dt
                   (mkWorld ps rc []) = Some (tt, w') /\
    particles w' = map (integrate radius areaSize dt) ps /\
    rand_calls w' = rc /\
    calls (trace w') = 0%nat.
Proof.
  intros Hfar.
  destruct (StepSimulation_invariant radius areaSize perturbation rand_unit dt
              (fun u => particles u = map (integrate radius areaSize dt) ps /\
                        rand_calls u = rc /\ calls (trace u) = 0%nat)
              (mkWorld ps rc []))
    as (w' & E & _ & HB).
  - intros i j u u' Hij Hl (HP & HR & HC) Eu. simpl in Hij, Hl.
    destruct (lookup_lt_is_Some_2 (particles u) i ltac:(lia)) as [pi Hpi].
    destruct (lookup_lt_is_Some_2 (particles u) j ltac:(lia)) as [pj Hpj].
    assert (Hnc : ~ close radius pi pj).
    { rewrite HP in Hpi, Hpj. rewrite list_lookup_fmap in Hpi, Hpj.
      destruct (ps !! i) as [a|] eqn:Ha; [|discriminate].
      destruct (ps !! j) as [b|] eqn:Hb; [|discriminate].
      injection Hpi as <-. injection Hpj as <-.
      apply (Hfar i j a b); [lia | assumption | assumption]. }
    destruct (examine_cases radius perturbation rand_unit i j u u' pi pj
                ltac:(lia) Hpi Hpj Eu)
      as [(Hc & _)|[(Hc & _)|(_ & ->)]]; try contradiction.
    simpl. rewrite calls_app. simpl. auto with lia.
  - simpl. auto.
  - exists w'. tauto.
Qed.

End FreeFlight.

(** ** The initial state built by [main] *)

Lemma slot_update (ps : list Particle) i f a rc tr :
  (i < length ps)%nat ->
  update_particle i f (mkWorld (<[i := a]> ps) rc tr)
  = Some (tt, mkWorld (<[i := f a]> ps) rc tr).
Proof.
  intros Hi. unfold update_particle, set_particles. simpl.
  rewrite list_lookup_insert_eq by exact Hi.
  rewrite list_insert_insert_eq. reflexivity.
Qed.

Section Initialisation.

Variable areaSize : R.
Variable rand_unit : nat -> R.

Lemma next_rand_run l rc tr :
  next_rand rand_unit (mkWorld l rc tr)
  = Some (rand_unit rc, mkWorld l (S rc) tr).
Proof. reflexivity. Qed.

Lemma init_particle_run i u p :
  particles u !! i = Some p ->
  init_particle areaSize rand_unit i u =
  Some (tt, mkWorld
    (<[i := mkParticle
         (Vector2.mk (rand_unit (rand_calls u) * areaSize - areaSize * 0.5)
                     (rand_unit (S (rand_calls u)) * areaSize - areaSize * 0.5))
         (Vector2.mk
            (cos (rand_unit (S (S (rand_calls u))) * 2 * M_PI) * 80)
            (sin (rand_unit (S (S (rand_calls u))) * 2 * M_PI) * 80))]>
       (particles u))
    (S (S (S (rand_calls u)))) (trace u)).
Proof.
  intros Hp. pose proof (lookup_lt_Some _ _ _ Hp) as Hi.
  assert (Hu : u = mkWorld (<[i := p]> (particles u)) (rand_calls u) (trace u)).
  { rewrite (list_insert_id _ i p Hp). destruct u; reflexivity. }
  rewrite Hu at 1. unfold init_particle.
  set (ps := particles u). set (rc := rand_calls u). set (tr := trace u).
  repeat first
    [ rewrite (bind_run _ _ _ _ _ (slot_update ps i _ _ _ _ Hi))
    | rewrite (bind_run _ _ _ _ _ (next_rand_run _ _ _))
    | progress cbv zeta ].
  rewrite (slot_update ps i _ _ _ _ Hi). reflexivity.
Qed.

(** The particle the loop writes for the random numbers [a], [b], [c]. *)
Lemma init_particles_inv (Good : Particle -> Prop) w :
  (forall a b c : nat, Good (mkParticle
     (Vector2.mk (rand_unit a * areaSize - areaSize * 0.5)
                 (rand_unit b * areaSize - areaSize * 0.5))
     (Vector2.mk (cos (rand_unit c * 2 * M_PI) * 80)
                 (sin (rand_unit c * 2 * M_PI) * 80)))) ->
  exists w',
    init_particles areaSize rand_unit w = Some (tt, w') /\
    length (particles w') = length (particles w) /\
    rand_calls w' = (rand_calls w + 3 * length (particles w))%nat /\
    trace w' = trace w /\
    forall k q, particles w' !! k = Some q -> Good q.
Proof.
  intros HGood. unfold init_particles.
  set (n := length (particles w)).
  pose (Inv := fun (seen : list nat) (u : World) =>
    length (particles u) = n /\
    rand_calls u = (rand_calls w + 3 * length seen)%nat /\
    trace u = trace w /\
    forall k q, k ∈ seen -> particles u !! k = Some q -> Good q).
  assert (Hbody : forall seen i rest, seq 0 n = seen ++ i :: rest ->
    hoare (Inv seen) (init_particle areaSize rand_unit i)
          (fun _ => Inv (seen ++ [i]))).
  { intros seen i rest Hs u (Hl & Hr & Ht & Hg).
    assert (Hi : (i < n)%nat).
    { assert (H : i ∈ seq 0 n) by (rewrite Hs; apply elem_of_app; right; left).
      apply elem_of_seq in H. lia. }
    destruct (lookup_lt_is_Some_2 (particles u) i ltac:(lia)) as [p Hp].
    eexists tt, _. split; [apply (init_particle_run i u p Hp)|].
    unfold Inv. simpl. rewrite length_insert, length_app. simpl.
    split; [exact Hl|]. split; [lia|]. split; [exact Ht|].
    intros k q Hk Hq. destruct (decide (k = i)) as [->|Hne].
    - rewrite list_lookup_insert_eq in Hq by lia. injection Hq as <-.
      apply HGood.
    - rewrite list_lookup_insert_ne in Hq by congruence.
      apply (Hg k q); [|exact Hq].
      apply elem_of_app in Hk. destruct Hk as [Hk|Hk]; [exact Hk|].
      apply list_elem_of_singleton in Hk. contradiction. }
  destruct (hoare_for_each Inv (seq 0 n) _ Hbody w)
    as ([] & w' & E & Hl & Hr & Ht & Hg).
  { unfold Inv. simpl. split; [reflexivity|]. split; [lia|].
    split; [reflexivity|].
    intros k q Hk. apply elem_of_nil in Hk. contradiction. }
  exists w'. split; [exact E|]. split; [exact Hl|].
  split; [rewrite Hr, length_seq; reflexivity|]. split; [exact Ht|].
  intros k q Hq. apply (Hg k q); [|exact Hq].
  apply elem_of_seq. apply lookup_lt_Some in Hq. lia.
Qed.

(** X14. The initialisation loop of [main] overwrites every particle,
    keeps their number, draws three random numbers for each and never
    writes the trace. When [std::rand() / RAND_MAX] stays in [[0, 1]] and
    [areaSize] is not negative, every centre lies in the domain,
    [|x| <= areaSize / 2] and [|y| <= areaSize / 2], and no component of a
    velocity exceeds 80 in absolute value. *)
Theorem init_particles_spec w :
  0 <= areaSize ->
  (forall k, 0 <= rand_unit k <= 1) ->
  exists w',
    init_particles areaSize rand_unit w = Some (tt, w') /\
    length (particles w') = length (particles w) /\
    rand_calls w' = (rand_calls w + 3 * length (particles w))%nat /\
    trace w' = trace w /\
    forall k q, particles w' !! k = Some q ->
      Rabs (Vector2.x (position q)) <= areaSize / 2 /\
      Rabs (Vector2.y (position q)) <= areaSize / 2 /\
      Rabs (Vector2.x (velocity q)) <= 80 /\
      Rabs (Vector2.y (velocity q)) <= 80.
Proof.
  intros Harea Hrand. apply init_particles_inv.
  intros a b c. simpl.
  pose proof (Hrand a) as H1. pose proof (Hrand b) as H2.
  pose proof (COS_bound (rand_unit c * 2 * M_PI)) as Hc.
  pose proof (SIN_bound (rand_unit c * 2 * M_PI)) as Hs.
  repeat split; apply Rabs_le; split; nra.
Qed.

End Initialisation.

Section WholeRun.

Variables radius areaSize perturbation : R.
Variable rand_unit : nat -> R.

(** X15. The main loop, from any state and for any number of frames, and
    [main] as a whole, from the initialisation on, never fault (no index
    out of range, no division by zero, no square root of a negative
    number) and end with as many particles as the vector had, whatever
    the random numbers are. *)
Theorem main_keeps_count dt frames w :
  (exists w',
     main_loop radius areaSize perturbation rand_unit dt frames w
       = Some (tt, w') /\
     length (particles w') = length (particles w)) /\
  (exists w',
     main radius areaSize perturbation rand_unit dt frames w = Some (tt, w') /\
     length (particles w') = length (particles w)).
Proof.
  assert (Hloop : forall n u, exists u',
            main_loop radius areaSize perturbation rand_unit dt n u
              = Some (tt, u') /\
            length (particles u') = length (particles u)).
  { induction n as [|k IH]; intros u.
    - exists u. split; reflexivity.
    - destruct (StepSimulation_invariant radius areaSize perturbation
                  rand_unit dt (fun _ => True) u
                  (fun _ _ _ _ _ _ _ _ => I) I) as (u1 & E1 & Hl1 & _).
      destruct (IH u1) as (u' & E & Hl).
      exists u'. simpl. rewrite (bind_run _ _ _ _ _ E1).
      split; [exact E | lia]. }
  split; [apply Hloop|].
  destruct (init_particles_inv areaSize rand_unit (fun _ => True) w
              (fun _ _ _ => I)) as (w0 & E0 & Hl0 & _).
  destruct (Hloop frames w0) as (w' & E & Hl).
  exists w'. unfold main. rewrite (bind_run _ _ _ _ _ E0).
  split; [exact E | lia].
Qed.

End WholeRun.

(** ** The further theorems at the constants of the source *)

Lemma rest_cell (x : R) (cx : Z) :
  -296 <= x <= 296 -> IZR cx <= (x + 300) / 8 < IZR cx + 1 ->
  cell_of Part2.radius Part2.areaSize
    (integrate Part2.radius Part2.areaSize Part2.dtFixed
       (mkParticle (Vector2.mk x 0) (Vector2.mk 0 0)))
  = Cell.mk cx 37.
Proof.
  intros Hx Hc.
  assert (Hh : half Part2.areaSize = 300) by (unfold half, Part2.areaSize; lra).
  assert (Hr : Part2.radius = 4) by reflexivity.
  unfold cell_of, cell_index, cellSize.
  rewrite integrate_position_x, integrate_position_y. simpl.
  rewrite Hh, Hr.
  repeat (destruct (Rlt_dec _ _) || destruct (Rgt_dec _ _)); try lra;
    f_equal; apply Zfloor_eq; replace (2 * 4) with 8 by lra;
    rewrite ?Rmult_0_l, ?Rplus_0_r; lra.
Qed.

(** In the row of three at [(2, 0)], [(-3, 0)] and [(4.5, 0)], the first
    and the third are in adjacent cells and the first is never the second
    particle of a pair: the step tests them. *)
Lemma adjacent_pair_is_tested_witness :
  exists w',
    StepSimulation Part2.radius Part2.areaSize Part2.p (fun _ => 0)
      Part2.dtFixed
      (mkWorld [mkParticle (Vector2.mk 2 0) (Vector2.mk 0 0);
                mkParticle (Vector2.mk (-3) 0) (Vector2.mk 0 0);
                mkParticle (Vector2.mk 4.5 0) (Vector2.mk 0 0)] 0 [])
      = Some (tt, w') /\
    ((0%nat, 2%nat) ∈ (fst <$> trace w') \/
     exists a, (a < 0)%nat /\ (a, 0%nat, true) ∈ trace w').
Proof.
  apply (adjacent_pair_is_tested Part2.radius Part2.areaSize Part2.p
           (fun _ => 0) Part2.dtFixed
           [mkParticle (Vector2.mk 2 0) (Vector2.mk 0 0);
            mkParticle (Vector2.mk (-3) 0) (Vector2.mk 0 0);
            mkParticle (Vector2.mk 4.5 0) (Vector2.mk 0 0)] 0 0 2 _ _
           eq_refl eq_refl);
    [lia | |];
    rewrite (rest_cell 2 37), (rest_cell 4.5 38) by lra; simpl; lia.
Defined.

Lemma integrate_zero_step_witness :
  Part2.radius <= Part2.areaSize / 2 /\
  integrate Part2.radius Part2.areaSize 0
    (integrate Part2.radius Part2.areaSize Part2.dtFixed
       (mkParticle (Vector2.mk 299 0) (Vector2.mk 80 0)))
  = integrate Part2.radius Part2.areaSize Part2.dtFixed
      (mkParticle (Vector2.mk 299 0) (Vector2.mk 80 0)).
Proof.
  split; [apply Part2_fits|].
  apply (integrate_zero_step Part2.radius Part2.areaSize Part2.dtFixed
           (mkParticle (Vector2.mk 299 0) (Vector2.mk 80 0))
           (proj2 Part2_fits)).
Defined.

Lemma ResolveCollision_draws_four_witness :
  exists w',
    ResolveCollision Part2.radius Part2.p (fun _ => 0) 0 1
      (mkWorld [mkParticle (Vector2.mk 0 0) (Vector2.mk 3 1);
                mkParticle (Vector2.mk 1 0) (Vector2.mk (-2) 5)] 0 [])
      = Some (tt, w') /\
    trace w' = [] /\ rand_calls w' = 4%nat.
Proof.
  destruct (ResolveCollision_draws_four Part2.radius Part2.p (fun _ => 0)
              (mkWorld [mkParticle (Vector2.mk 0 0) (Vector2.mk 3 1);
                        mkParticle (Vector2.mk 1 0) (Vector2.mk (-2) 5)] 0 [])
              0 1 _ _ ltac:(discriminate) eq_refl eq_refl)
    as (w' & E & Ht & Hfour & _).
  exists w'. split; [exact E|]. split; [exact Ht|].
  apply Hfour; simpl; unfold Part2.radius; lra.
Defined.

Lemma StepSimulation_draws_witness :
  1e-3 < 2 * Part2.radius /\
  exists w',
    StepSimulation Part2.radius Part2.areaSize Part2.p (fun _ => 0)
      Part2.dtFixed
      (mkWorld [mkParticle (Vector2.mk 296 0) (Vector2.mk 0 0);
                mkParticle (Vector2.mk 295 0) (Vector2.mk 0 0)] 0 [])
      = Some (tt, w') /\
    rand_calls w' = (0 + 4 * calls (trace w'))%nat.
Proof.
  assert (H : 1e-3 < 2 * Part2.radius) by (unfold Part2.radius; lra).
  split; [exact H|].
  apply (StepSimulation_draws Part2.radius Part2.areaSize Part2.p (fun _ => 0)
           Part2.dtFixed _ 0 H).
Defined.

Lemma far_pair_not_close :
  forall i j pi pj, (i < j)%nat ->
    [mkParticle (Vector2.mk 0 0) (Vector2.mk 0 0);
     mkParticle (Vector2.mk 100 0) (Vector2.mk 0 0)] !! i = Some pi ->
    [mkParticle (Vector2.mk 0 0) (Vector2.mk 0 0);
     mkParticle (Vector2.mk 100 0) (Vector2.mk 0 0)] !! j = Some pj ->
    ~ close Part2.radius
        (integrate Part2.radius Part2.areaSize Part2.dtFixed pi)
        (integrate Part2.radius Part2.areaSize Part2.dtFixed pj).
Proof.
  assert (Hh : half Part2.areaSize = 300) by (unfold half, Part2.areaSize; lra).
  assert (Hr : Part2.radius = 4) by reflexivity.
  intros [|[|i]] [|[|j]] pi pj Hij Hi Hj; simpl in Hi, Hj;
    try lia; try discriminate.
  injection Hi as <-. injection Hj as <-. unfold close.
  rewrite !integrate_position_x, !integrate_position_y. simpl.
  rewrite Hh, Hr. unfold Part2.dtFixed.
  repeat (destruct (Rlt_dec _ _) || destruct (Rgt_dec _ _)); try lra.
Qed.

Lemma StepSimulation_free_flight_witness :
  exists w',
    StepSimulation Part2.radius Part2.areaSize Part2.p (fun _ => 0)
      Part2.dtFixed
      (mkWorld [mkParticle (Vector2.mk 0 0) (Vector2.mk 0 0);
                mkParticle (Vector2.mk 100 0) (Vector2.mk 0 0)] 0 [])
      = Some (tt, w') /\
    rand_calls w' = 0%nat /\ calls (trace w') = 0%nat.
Proof.
  destruct (StepSimulation_free_flight Part2.radius Part2.areaSize Part2.p
              (fun _ => 0) Part2.dtFixed _ 0 far_pair_not_close)
    as (w' & E & _ & Hr & Hc).
  exists w'. auto.
Defined.

Lemma init_particles_spec_witness :
  0 <= Part2.areaSize /\
  exists w',
    init_particles Part2.areaSize (fun _ => 0)
      (mkWorld [mkParticle (Vector2.mk 0 0) (Vector2.mk 0 0);
                mkParticle (Vector2.mk 0 0) (Vector2.mk 0 0)] 0 [])
      = Some (tt, w') /\
    length (particles w') = 2%nat /\ rand_calls w' = 6%nat.
Proof.
  assert (H : 0 <= Part2.areaSize) by (unfold Part2.areaSize; lra).
  split; [exact H|].
  destruct (init_particles_spec Part2.areaSize (fun _ => 0)
              (mkWorld [mkParticle (Vector2.mk 0 0) (Vector2.mk 0 0);
                        mkParticle (Vector2.mk 0 0) (Vector2.mk 0 0)] 0 [])
              H ltac:(intros k; lra))
    as (w' & E & Hl & Hr & _).
  exists w'. auto.
Defined.
